(** * NativeScript CLI: the update controller base

    A shallow embedding of [UpdateControllerBase] (backup / restore of
    project folders, dependency queries, version resolution and the
    memoized manifest lookup) together with the properties its
    specification states about it. *)

From Stdlib Require Import Ascii.
From stdpp Require Import gmap strings list fin_maps.

Local Open Scope string_scope.
Local Open Scope list_scope.

(** * Results of fallible calls *)

Inductive result (E A : Type) : Type :=
  | Ok (a : A)
  | Err (e : E).
Arguments Ok {E A} a.
Arguments Err {E A} e.

(** * JavaScript truthiness of [string | undefined] values *)

Module JS.

(** [undefined] and [null] are [None]; the empty string is the only
    falsy string. *)
Definition truthy (v : option string) : bool :=
  match v with
  | Some s => negb (String.eqb s "")
  | None => false
  end.

(** [a || b] *)
Definition or (a b : option string) : option string :=
  if truthy a then a else b.

End JS.

(** * The file system seen by [backup] and [restoreBackup] *)

Module Snapshot.

(** A directory or an entry is given by the components of its absolute,
    normalized path, from the file system root down. *)
Abbreviation path := (list string).

(** The entry of a directory under a name that is one component. *)
Definition child (dir : path) (name : string) : path := dir ++ [name].

(** The segments of a name between its separators [/]. *)
Fixpoint segments (name : string) : list string :=
  match name with
  | EmptyString => [EmptyString]
  | String c rest =>
      if Ascii.eqb c "/"%char then EmptyString :: segments rest
      else match segments rest with
           | [] => [String c EmptyString]
           | s :: ss => String c s :: ss
           end
  end.

(** One segment resolved against a directory: an empty segment and [.]
    stay where they are, [..] steps to the parent (the root is its own
    parent), anything else names a child. *)
Definition resolve (dir : path) (segment : string) : path :=
  if String.eqb segment "" || String.eqb segment "." then dir
  else if String.eqb segment ".." then removelast dir
  else child dir segment.

(** Modelled from the spec: [path.join] of Node's [path] module (POSIX),
    which is not part of the sources, applied to a directory and an entry
    of the folder list: the two are joined by [/] and the result is
    normalized, segment by segment.  A trailing separator is not kept:
    the file system takes [dir/name/] for [dir/name]. *)
Definition path_join (dir : path) (folder : string) : path :=
  foldl resolve dir (segments folder).

Fixpoint no_separator (name : string) : bool :=
  match name with
  | EmptyString => true
  | String c rest => negb (Ascii.eqb c "/"%char) && no_separator rest
  end.

(** A folder name: one path component, neither empty nor [.] nor [..]. *)
Definition folder_name (name : string) : bool :=
  negb (String.eqb name "") && negb (String.eqb name ".")
  && negb (String.eqb name "..") && no_separator name.

(** The backup set of the specification: a list of folder names. *)
Definition folder_names (folders : list string) : Prop :=
  Forall (λ f, folder_name f = true) folders.

Definition basename (p : path) : string := default "" (last p).

Inductive entry : Type :=
  | EDir
  | EFile (content : string).

#[global] Instance entry_eq_dec : EqDecision entry.
Proof. solve_decision. Defined.

(** The tree of a file system: every existing path with what is there. *)
Abbreviation fstree := (gmap path entry).

(** [relative p k] is [Some r] exactly when [k = p ++ r]. *)
Fixpoint relative (p k : path) : option path :=
  match p, k with
  | [], _ => Some k
  | x :: p', y :: k' => if decide (x = y) then relative p' k' else None
  | _ :: _, [] => None
  end.

(** All prefixes of a path, the path itself included. *)
Fixpoint ancestors (p : path) : list path :=
  [] :: match p with
        | [] => []
        | x :: p' => (x ::.) <$> ancestors p'
        end.

(** Modelled from the spec: [exists] of the [FileSystem] collaborator,
    whose implementation is not part of the sources: something is at
    the path. *)
Definition tree_exists (p : path) (t : fstree) : bool :=
  bool_decide (is_Some (t !! p)).

(** Modelled from the spec: [deleteDirectory] of the [FileSystem]
    collaborator: the path and all below it go; nothing happens when the
    path is not there. *)
Definition tree_delete (p : path) (t : fstree) : fstree :=
  filter (λ kv, ¬ p `prefix_of` kv.1) t.

(** Modelled from the spec: [createDirectory] of the [FileSystem]
    collaborator: the directory and its missing parents are created;
    what is there stays. *)
Definition tree_mkdir (p : path) (t : fstree) : fstree :=
  t ∪ gset_to_gmap EDir (list_to_set (ancestors p)).

(** Modelled from the spec: the copy of the [FileSystem] collaborator
    ([copyFile] in the source): the source, with all below it, is placed
    as a child of the destination under its own name, over what the
    destination has there. *)
Definition tree_copy (src dstInto : path) (t : fstree) : fstree :=
  map_fold (λ k e acc,
              match relative src k with
              | Some r => <[child dstInto (basename src) ++ r := e]> acc
              | None => acc
              end) t t.

(** A tree is well formed when every entry has its parent chain. *)
Definition wf (t : fstree) : Prop :=
  ∀ k r, t !! k = None → t !! (k ++ r) = None.

Definition wf_check (t : fstree) : bool :=
  bool_decide
    (map_Forall (λ k _, Forall (λ a, is_Some (t !! a)) (ancestors k)) t).

(** ** Effects: the operations issued, in order, and their failures *)

Inductive fs_op : Type :=
  | OpDelete (p : path)
  | OpCreate (p : path)
  | OpExists (p : path)
  | OpCopy (src dstInto : path).

#[global] Instance fs_op_eq_dec : EqDecision fs_op.
Proof. solve_decision. Defined.

(** What a file system call throws. *)
Inductive fs_error : Type :=
  | FsError (op : fs_op).

(** The state threaded through the controller: the tree, and the journal
    of every call made so far with whether it succeeded. *)
Record world : Type := World {
  tree : fstree;
  journal : list (fs_op * bool)
}.

Definition M (A : Type) : Type := world → result fs_error A * world.

Definition ret {A} (a : A) : M A := λ w, (Ok a, w).

Definition bind {A B} (m : M A) (k : A → M B) : M B :=
  λ w, match m w with
       | (Ok a, w') => k a w'
       | (Err e, w') => (Err e, w')
       end.

#[global] Instance M_ret : MRet M := @ret.
#[global] Instance M_bind : MBind M := λ A B k m, bind m k.

(** [for (const x of xs) body(x)] *)
Fixpoint for_of {A} (xs : list A) (body : A → M unit) : M unit :=
  match xs with
  | [] => ret tt
  | x :: xs' => body x;; for_of xs' body
  end.

Section Controller.

(** [fault i] tells whether the [i]-th file system call of the run
    throws; a call that throws changes nothing. *)
Variable fault : nat → bool.

Definition attempt (op : fs_op) (effect : fstree → fstree) : M unit :=
  λ w, if fault (length (journal w))
       then (Err (FsError op), World (tree w) (journal w ++ [(op, false)]))
       else (Ok tt, World (effect (tree w)) (journal w ++ [(op, true)])).

Definition deleteDirectory (p : path) : M unit :=
  attempt (OpDelete p) (tree_delete p).

Definition createDirectory (p : path) : M unit :=
  attempt (OpCreate p) (tree_mkdir p).

Definition copyFile (src dstInto : path) : M unit :=
  attempt (OpCopy src dstInto) (tree_copy src dstInto).

Definition fs_exists (p : path) : M bool :=
  λ w, (Ok (tree_exists p (tree w)),
        World (tree w) (journal w ++ [(OpExists p, true)])).

(** The body of the loop of [restoreBackup]. *)
Definition restoreFolder (backupDir projectDir : path) (folder : string)
    : M unit :=
  deleteDirectory (path_join projectDir folder);;
  let folderToCopy := path_join backupDir folder in
  present ← fs_exists folderToCopy;
  if present : bool then copyFile folderToCopy projectDir else ret tt.

Definition restoreBackup (folders : list string) (backupDir projectDir : path)
    : M unit :=
  for_of folders (restoreFolder backupDir projectDir).

(** The body of the loop of [backup]. *)
Definition backupFolder (backupDir projectDir : path) (folder : string)
    : M unit :=
  let folderToCopy := path_join projectDir folder in
  present ← fs_exists folderToCopy;
  if present : bool then copyFile folderToCopy backupDir else ret tt.

Definition backup (folders : list string) (backupDir projectDir : path)
    : M unit :=
  deleteDirectory backupDir;;
  createDirectory backupDir;;
  for_of folders (backupFolder backupDir projectDir).

End Controller.

(** A run in which no call throws. *)
Definition no_fault : nat → bool := λ _, false.

(** The calls a run from [w] to [w'] has added to the journal. *)
Definition issued (w w' : world) : list (fs_op * bool) :=
  drop (length (journal w)) (journal w').

(** ** The snapshot protocol in the words of its specification

    For a list of folder names.  Restore: for each folder, delete
    [projectRoot/folder], then copy [backupRoot/folder] back only if the
    backup has it.  Backup: empty the backup root, then copy each
    [projectRoot/folder] the project has. *)

Definition restore_folder (B P : path) (t : fstree) (f : string) : fstree :=
  let t1 := tree_delete (child P f) t in
  if tree_exists (child B f) t1 then tree_copy (child B f) P t1 else t1.

Definition restore_tree (F : list string) (B P : path) (t : fstree) : fstree :=
  foldl (restore_folder B P) t F.

Definition backup_folder (B P : path) (t : fstree) (f : string) : fstree :=
  if tree_exists (child P f) t then tree_copy (child P f) B t else t.

Definition backup_tree (F : list string) (B P : path) (t : fstree) : fstree :=
  foldl (backup_folder B P) (tree_mkdir B (tree_delete B t)) F.

(** The journals of runs in which nothing throws. *)
Fixpoint restore_ops (F : list string) (B P : path) (t : fstree)
    : list (fs_op * bool) :=
  match F with
  | [] => []
  | f :: F' =>
      (OpDelete (child P f), true) :: (OpExists (child B f), true)
      :: (if tree_exists (child B f) (tree_delete (child P f) t)
          then [(OpCopy (child B f) P, true)] else [])
      ++ restore_ops F' B P (restore_folder B P t f)
  end.

Fixpoint backup_loop_ops (F : list string) (B P : path) (t : fstree)
    : list (fs_op * bool) :=
  match F with
  | [] => []
  | f :: F' =>
      (OpExists (child P f), true)
      :: (if tree_exists (child P f) t
          then [(OpCopy (child P f) B, true)] else [])
      ++ backup_loop_ops F' B P (backup_folder B P t f)
  end.

Definition backup_ops (F : list string) (B P : path) (t : fstree)
    : list (fs_op * bool) :=
  (OpDelete B, true) :: (OpCreate B, true)
  :: backup_loop_ops F B P (tree_mkdir B (tree_delete B t)).

(** The same protocol on any list of strings, as the code runs it: the
    paths are those [path.join] gives. *)
Definition restore_step (B P : path) (t : fstree) (f : string) : fstree :=
  let t1 := tree_delete (path_join P f) t in
  let folderToCopy := path_join B f in
  if tree_exists folderToCopy t1 then tree_copy folderToCopy P t1 else t1.

Definition backup_step (B P : path) (t : fstree) (f : string) : fstree :=
  let folderToCopy := path_join P f in
  if tree_exists folderToCopy t then tree_copy folderToCopy B t else t.

(** The project root is not inside the backup root, and the backup root
    is not a listed folder of the project nor inside one. *)
Definition separate (F : list string) (B P : path) : Prop :=
  ¬ B `prefix_of` P ∧ ∀ f, f ∈ F → ¬ path_join P f `prefix_of` B.

(** The same of the entries of the project root under the listed names. *)
Definition apart (F : list string) (B P : path) : Prop :=
  ¬ B `prefix_of` P ∧ ∀ f, f ∈ F → ¬ child P f `prefix_of` B.

(** A restore that brings the project root back to exactly the entries
    it had at backup time; the backup root, which may be an entry of the
    project root, is left out of the comparison. *)
Definition exact_round_trip (B P : path) (at_backup after : fstree) : Prop :=
  ∀ n, child P n ≠ B →
       tree_exists (child P n) after = tree_exists (child P n) at_backup.

(** The calls a restore may issue: the three calls of its loop body, on
    listed folders. *)
Definition restore_call (F : list string) (B P : path) (o : fs_op * bool)
    : Prop :=
  ∃ f, f ∈ F ∧ (o.1 = OpDelete (path_join P f)
                ∨ o.1 = OpExists (path_join B f)
                ∨ o.1 = OpCopy (path_join B f) P).

(** ** The scenario of the specification

    A project with folders [A] and [B]; the backup set also lists [C],
    which the project does not have.  After the backup, [A] is deleted
    and [D] is created; then the backup is restored. *)
Module Scenario.

Definition projectDir : path := ["app"].
Definition backupDir : path := ["app"; ".migration_backup"].
Definition folders : list string := ["A"; "B"; "C"].

Definition at_backup : fstree :=
  list_to_map [ ([], EDir); (["app"], EDir);
                (["app"; "A"], EDir); (["app"; "A"; "a.txt"], EFile "x");
                (["app"; "B"], EDir); (["app"; "B"; "b.txt"], EFile "y") ].

Definition backed_up : world :=
  (backup no_fault folders backupDir projectDir (World at_backup [])).2.

Definition mutated : world :=
  World (<[ ["app"; "D"] := EDir ]> (tree_delete ["app"; "A"] (tree backed_up)))
        (journal backed_up).

Definition restored : world :=
  (restoreBackup no_fault folders backupDir projectDir mutated).2.

(** A tree that already holds an earlier backup, and a run in which the
    fourth call, the first copy, throws. *)
Definition with_old_backup : fstree :=
  list_to_map [ (backupDir, EDir);
                (backupDir ++ ["old"], EDir);
                (backupDir ++ ["old"; "o.txt"], EFile "z") ] ∪ at_backup.

Definition first_copy_fails : nat → bool := λ i, Nat.eqb i 3.

Definition failed : result fs_error unit * world :=
  backup first_copy_fails folders backupDir projectDir
    (World with_old_backup []).

(** A list whose one entry is a path of two components, and a backup
    that has this path twice, one below the other. *)
Definition nested_folders : list string := ["x/b"].
Definition nested_backupDir : path := ["p"; "b"].
Definition nested_projectDir : path := ["p"].

Definition nested : fstree :=
  list_to_map [ ([], EDir); (["p"], EDir); (["p"; "b"], EDir);
                (["p"; "b"; "x"], EDir); (["p"; "b"; "x"; "b"], EDir);
                (["p"; "b"; "x"; "b"; "x"], EDir);
                (["p"; "b"; "x"; "b"; "x"; "b"], EDir);
                (["p"; "b"; "x"; "b"; "x"; "b"; "z"], EFile "z") ].

Definition nested_restored : world :=
  (restoreBackup no_fault nested_folders nested_backupDir nested_projectDir
     (World nested [])).2.

End Scenario.

End Snapshot.

(** * Dependency queries *)

Module DependencyQuery.

(** The fields of [IDependency] and [IProjectData] that [hasDependency]
    reads.  Either mapping of the project may be missing ([undefined]). *)
Record IDependency : Type := {
  packageName : string
}.

Record IProjectData : Type := {
  dependencies : option (gmap string string);
  devDependencies : option (gmap string string)
}.

(** The names every object inherits from [Object.prototype]. *)
Definition Object_prototype : list string :=
  [ "constructor"; "__defineGetter__"; "__defineSetter__"; "hasOwnProperty";
    "__lookupGetter__"; "__lookupSetter__"; "isPrototypeOf";
    "propertyIsEnumerable"; "toString"; "valueOf"; "__proto__";
    "toLocaleString" ].

Definition inherited (key : string) : bool :=
  bool_decide (key ∈ Object_prototype).

(** What [obj[key]] can be for a mapping of [package.json]: the version
    string under an own key, or the member of [Object.prototype] of that
    name, a function (for [__proto__] the prototype itself). *)
Inductive value : Type :=
  | Version (text : string)
  | Inherited (name : string).

(** The empty version string is the only falsy value there is. *)
Definition truthy (v : option value) : bool :=
  match v with
  | Some (Version text) => JS.truthy (Some text)
  | Some (Inherited _) => true
  | None => false
  end.

(** [a || b] *)
Definition or (a b : option value) : option value :=
  if truthy a then a else b.

(** [obj[key]]: the own property, else the inherited one, else
    [undefined]. *)
Definition index (obj : gmap string string) (key : string) : option value :=
  match obj !! key with
  | Some text => Some (Version text)
  | None => if inherited key then Some (Inherited key) else None
  end.

(** [obj && obj[key]] for an object that may be missing. *)
Definition and_index (obj : option (gmap string string)) (key : string)
    : option value :=
  match obj with
  | Some m => index m key
  | None => None
  end.

(** The value the function returns: one of the two version strings, a
    member of [Object.prototype] or [undefined]; callers use it as a
    condition. *)
Definition hasDependency (dependency : IDependency) (projectData : IProjectData)
    : option value :=
  let devDependencies := devDependencies projectData in
  let dependencies := dependencies projectData in
  or (and_index dependencies (packageName dependency))
     (and_index devDependencies (packageName dependency)).

(** The package name is a key of [dependencies] or of [devDependencies]. *)
Definition declared (name : string) (projectData : IProjectData) : Prop :=
  (∃ m, dependencies projectData = Some m ∧ is_Some (m !! name))
  ∨ (∃ m, devDependencies projectData = Some m ∧ is_Some (m !! name)).

(** No version string of the project is empty. *)
Definition versions_nonempty (projectData : IProjectData) : Prop :=
  ∀ m name,
    (dependencies projectData = Some m ∨ devDependencies projectData = Some m) →
    m !! name ≠ Some "".

(** A project whose one dependency accepts any version (the empty
    range). *)
Definition any_version_project : IProjectData :=
  {| dependencies := Some {[ "tns-core-modules" := "" ]};
     devDependencies := None |}.

Definition core_modules : IDependency := {| packageName := "tns-core-modules" |}.

(** A project that has it among its development dependencies only. *)
Definition dev_only_project : IProjectData :=
  {| dependencies := None;
     devDependencies := Some {[ "tns-core-modules" := "^6.0.0" ]} |}.

(** A project that declares nothing, in two empty mappings. *)
Definition empty_project : IProjectData :=
  {| dependencies := Some ∅; devDependencies := Some ∅ |}.

End DependencyQuery.

(** * Version resolution and the memoized manifest lookup *)

Module Resolver.

(** The registry's metadata document for one package version. *)
Definition manifest : Type := string.

Inductive error : Type :=
  | RegistryError (reason : string)  (* a registry call rejected *)
  | Thrown (msg : string).           (* [new Error(msg)] thrown by the controller *)

(** The collaborators [$packageManager], [$packageInstallationManager]
    and [$pacoteService], as what they answer at a given moment: a value,
    or the reason of a rejection. *)
Record Registry : Type := {
  tag_version : string → string → result string (option string);
  max_satisfying : string → string → result string (option string);
  pacote_manifest : string → bool → result string manifest
}.

(** A rejected call is passed on as it is. *)
Definition awaited {A} (answer : result string A) : result error A :=
  match answer with
  | Ok a => Ok a
  | Err reason => Err (RegistryError reason)
  end.

Inductive call : Type :=
  | CallGetTagVersion (name tag : string)
  | CallMaxSatisfyingVersion (name range : string)
  | CallManifest (spec : string) (fullMetadata : bool).

#[global] Instance call_eq_dec : EqDecision call.
Proof. solve_decision. Defined.

(** The registry as it answers now, the calls made to it so far, and the
    cache of the memoized function: a promise per key, represented by what
    it settles to. *)
Record world : Type := World {
  registry : Registry;
  calls : list call;
  cache : gmap string (result error manifest)
}.

Definition record_call (c : call) (w : world) : world :=
  World (registry w) (calls w ++ [c]) (cache w).

Definition set_registry (r : Registry) (w : world) : world :=
  World r (calls w) (cache w).

Definition M (A : Type) : Type := world → result error A * world.

Definition ret {A} (a : A) : M A := λ w, (Ok a, w).

Definition throw {A} (e : error) : M A := λ w, (Err e, w).

Definition bind {A B} (m : M A) (k : A → M B) : M B :=
  λ w, match m w with
       | (Ok a, w') => k a w'
       | (Err e, w') => (Err e, w')
       end.

#[global] Instance M_ret : MRet M := @ret.
#[global] Instance M_bind : MBind M := λ A B k m, bind m k.

(** [semver.valid] and [semver.validRange]: the normalized text, or [null]. *)
Class Semver : Type := {
  valid : string → option string;
  validRange : string → option string
}.

(** [args.join(sep)] *)
Definition join (sep : string) (args : list string) : string :=
  String.concat sep args.

(** [String.prototype.includes] *)
Fixpoint includes (needle hay : string) : bool :=
  String.prefix needle hay
  || match hay with
     | EmptyString => false
     | String _ rest => includes needle rest
     end.

(** [_.memoize(func, resolver)] for a function of two strings: the promise
    made by the first call with a key is kept and handed to every later
    call with that key. *)
Definition memoize (func : string → string → M manifest)
    (resolver : list string → string) : string → string → M manifest :=
  λ a b w,
    let key := resolver [a; b] in
    match cache w !! key with
    | Some settled => (settled, w)
    | None =>
        let '(settled, w') := func a b w in
        (settled, World (registry w') (calls w') (<[key := settled]> (cache w')))
    end.

Section Controller.

Context {semver : Semver}.

Definition getTagVersion (name tag : string) : M (option string) :=
  λ w, (awaited (tag_version (registry w) name tag),
        record_call (CallGetTagVersion name tag) w).

Definition maxSatisfyingVersion (name range : string) : M (option string) :=
  λ w, (awaited (max_satisfying (registry w) name range),
        record_call (CallMaxSatisfyingVersion name range) w).

Definition pacoteManifest (spec : string) (fullMetadata : bool) : M manifest :=
  λ w, (awaited (pacote_manifest (registry w) spec fullMetadata),
        record_call (CallManifest spec fullMetadata) w).

Definition getMaxDependencyVersion (dependency version : string)
    : M (option string) :=
  if JS.truthy (valid version) then ret (Some version)
  else if JS.truthy (validRange version)
       then maxSatisfyingVersion dependency version
       else getTagVersion dependency version.

(** [semver.valid(version) || await getTagVersion(templateName, version)] *)
Definition packageVersionOf (templateName version : string) : M (option string) :=
  if JS.truthy (valid version) then ret (valid version)
  else getTagVersion templateName version.

(** [packageVersion && semver.valid(packageVersion)] as a condition *)
Definition usable (packageVersion : option string) : bool :=
  match packageVersion with
  | Some v => JS.truthy (Some v) && JS.truthy (valid v)
  | None => false
  end.

Definition failure_message (templateName version : string) : string :=
  "Failed to get information for package: " +:+ templateName +:+ "@" +:+ version.

Definition _getPackageManifest (templateName version : string) : M manifest :=
  packageVersion ← packageVersionOf templateName version;
  if usable packageVersion
  then pacoteManifest (templateName +:+ "@" +:+ default "" packageVersion) true
  else throw (Thrown (failure_message templateName version)).

Definition getPackageManifest : string → string → M manifest :=
  memoize _getPackageManifest (λ args, join "@" args).

(** ** The classification of the specification *)

Inductive SpecifierKind : Type := Exact | Range | Tag.

Definition classify (specifier : string) : SpecifierKind :=
  if JS.truthy (valid specifier) then Exact
  else if JS.truthy (validRange specifier) then Range
  else Tag.

(** ** What happens between two calls *)

Inductive event : Type :=
  | Asks (name specifier : string)   (* somebody calls [getPackageManifest] *)
  | RegistryBecomes (r : Registry).  (* the registry changes its answers *)

Definition step (w : world) (e : event) : world :=
  match e with
  | Asks name specifier => (getPackageManifest name specifier w).2
  | RegistryBecomes r => set_registry r w
  end.

Definition run (es : list event) (w : world) : world := foldl step w es.

(** The calls a run from [w] to [w'] has added. *)
Definition issued (w w' : world) : list call := drop (length (calls w)) (calls w').

Definition is_fetch (c : call) : bool :=
  match c with
  | CallManifest _ _ => true
  | _ => false
  end.

Definition is_range_lookup (c : call) : bool :=
  match c with
  | CallMaxSatisfyingVersion _ _ => true
  | _ => false
  end.

(** The second of two calls in a row gets what it would have got alone. *)
Definition independent (n1 s1 n2 s2 : string) : Prop :=
  ∀ w, (getPackageManifest n2 s2 (getPackageManifest n1 s1 w).2).1
       = (getPackageManifest n2 s2 w).1.

(** An error message that cites name, specifier and resolved value. *)
Definition cites_all (name specifier resolved msg : string) : Prop :=
  includes name msg = true ∧ includes specifier msg = true
  ∧ includes resolved msg = true.

End Controller.

(** A package name as the registry accepts it: not empty, and with no
    [@] except possibly in front (a scope). *)
Fixpoint no_at (s : string) : bool :=
  match s with
  | EmptyString => true
  | String c rest => negb (Ascii.eqb c "@"%char) && no_at rest
  end.

Definition package_name (n : string) : bool :=
  match n with
  | EmptyString => false
  | String _ rest => no_at rest
  end.

(** ** A small registry and a stand-in for semver, to run the functions *)

Module Sample.

Definition is_digit (c : Ascii.ascii) : bool :=
  let n := Ascii.nat_of_ascii c in (48 <=? n)%nat && (n <=? 57)%nat.

(** Splits at every dot. *)
Fixpoint fields (s : string) : list string :=
  match s with
  | EmptyString => [EmptyString]
  | String c rest =>
      if Ascii.eqb c "."%char then EmptyString :: fields rest
      else match fields rest with
           | [] => [String c EmptyString]
           | f :: fs => String c f :: fs
           end
  end.

Fixpoint all_digits (s : string) : bool :=
  match s with
  | EmptyString => true
  | String c rest => is_digit c && all_digits rest
  end.

Definition number (s : string) : bool :=
  negb (String.eqb s "") && all_digits s.

(** Three dotted numbers. *)
Definition plain_version (s : string) : bool :=
  match fields s with
  | [a; b; c] => number a && number b && number c
  | _ => false
  end.

Definition partial_version (s : string) : bool :=
  match fields s with
  | [a; b; c] =>
      number a && (number b || String.eqb b "x")
      && (number c || String.eqb c "x")
  | [a; b] => number a && (number b || String.eqb b "x")
  | [a] => number a || String.eqb a "*" || String.eqb a ""
  | _ => false
  end.

#[global] Instance semver : Semver := {|
  valid s := if plain_version s then Some s else None;
  validRange s :=
    match s with
    | String "^"%char rest | String "~"%char rest =>
        if partial_version rest then Some s else None
    | _ => if partial_version s then Some (if String.eqb s "" then "*" else s) else None
    end
|}.

(** Tags [latest] and [next] of every package, a tag whose text has an
    [@], and a tag bound to something that is no version. *)
Definition npm : Registry := {|
  tag_version name tag :=
    if String.eqb tag "latest" then Ok (Some "3.2.0")
    else if String.eqb tag "next" then Ok (Some "garbage")
    else if String.eqb tag "b@c" then Ok (Some "1.0.0")
    else if String.eqb tag "c" then Ok (Some "2.0.0")
    else if String.eqb tag "offline" then Err "ENOTFOUND"
    else Ok None;
  max_satisfying name range :=
    if String.eqb range "6.x" then Ok (Some "6.5.0") else Ok None;
  pacote_manifest spec fullMetadata :=
    Ok ((if fullMetadata then "full:" else "short:") +:+ spec)
|}.

(** The same registry after [latest] has moved. *)
Definition npm_later : Registry := {|
  tag_version name tag :=
    if String.eqb tag "latest" then Ok (Some "4.0.0") else tag_version npm name tag;
  max_satisfying := max_satisfying npm;
  pacote_manifest := pacote_manifest npm
|}.

Definition fresh : world := World npm [] ∅.

End Sample.

End Resolver.

(** * The runtime of a platform *)

Module Runtime.
Import Resolver.

Record IPlatformData : Type := {
  frameworkPackageName : string
}.

(** [String.prototype.toLowerCase], and the collaborators
    [$platformCommandHelper] and [$platformsDataService], as given. *)
Class Platforms : Type := {
  toLowerCase : string → string;
  getCurrentPlatformVersion :
    string → DependencyQuery.IProjectData → option string;
  getPlatformData : string → DependencyQuery.IProjectData → IPlatformData
}.

Section Controller.

Context {semver : Semver} {platforms : Platforms}.

Definition hasRuntimeDependency (platform : string)
    (projectData : DependencyQuery.IProjectData) : bool :=
  let lowercasePlatform := toLowerCase platform in
  let currentPlatformVersion :=
    getCurrentPlatformVersion lowercasePlatform projectData in
  JS.truthy currentPlatformVersion.

(** Without a current version the function ends without [return]:
    [undefined]. *)
Definition getMaxRuntimeVersion (platform : string)
    (projectData : DependencyQuery.IProjectData) : M (option string) :=
  let lowercasePlatform := toLowerCase platform in
  let currentPlatformVersion :=
    getCurrentPlatformVersion lowercasePlatform projectData in
  let platformData := getPlatformData lowercasePlatform projectData in
  match currentPlatformVersion with
  | Some current =>
      if JS.truthy currentPlatformVersion
      then found ← getMaxDependencyVersion
                     (frameworkPackageName platformData) current;
           mret (JS.or found currentPlatformVersion)
      else mret None
  | None => mret None
  end.

End Controller.

(** ** Sample platforms *)

Module Sample.

Definition lower (c : Ascii.ascii) : Ascii.ascii :=
  let n := Ascii.nat_of_ascii c in
  if (65 <=? n)%nat && (n <=? 90)%nat then Ascii.ascii_of_nat (n + 32) else c.

Fixpoint lowercase (s : string) : string :=
  match s with
  | EmptyString => EmptyString
  | String c rest => String (lower c) (lowercase rest)
  end.

(** Android is installed at an exact version, iOS at a tag the registry
    does not know, the web at a tag whose lookup the registry rejects, and
    nothing else is installed. *)
#[global] Instance platforms : Platforms := {|
  toLowerCase := lowercase;
  getCurrentPlatformVersion platform _ :=
    if String.eqb platform "android" then Some "6.0.0"
    else if String.eqb platform "ios" then Some "rc"
    else if String.eqb platform "web" then Some "offline"
    else None;
  getPlatformData platform _ :=
    {| frameworkPackageName := "tns-" +:+ platform |}
|}.

Definition no_project : DependencyQuery.IProjectData :=
  {| DependencyQuery.dependencies := None;
     DependencyQuery.devDependencies := None |}.

End Sample.

End Runtime.

(** * Requests to an application on an iOS device *)

Module IOSSocket.

Record IDeviceInfo : Type := {
  identifier : string
}.

Record IiOSDevice : Type := {
  deviceInfo : IDeviceInfo
}.

(** [$iOSNotification]: the names of the notifications. *)
Class IiOSNotification : Type := {
  getAttachRequest : string → string → string;
  getReadyForAttach : string → string;
  getRefreshRequest : string → string;
  getAppRefreshStarted : string → string
}.

(** What the code takes as given: JavaScript numbers, with the literals
    and the unary plus the code uses; what a collaborator rejects with and
    [$errors.fail] throws; and the constant
    [constants.IOS_OBSERVE_NOTIFICATION_COMMAND_TYPE]. *)
Class Given : Type := {
  number : Type;
  number_of_Z : Z → number;
  unary_plus : string → number;
  E : Type;
  IOS_OBSERVE_NOTIFICATION_COMMAND_TYPE : string
}.

Section Executor.

Context {given : Given}.

Inductive call : Type :=
  | PostNotification (deviceId name : string) (commandType : option string)
  | AwaitNotification (deviceId : string) (socket timeout : number)
  | Fail (message : string).

(** [$iOSNotificationService] and [$errors]: what each call answers,
    given all calls made up to and including it.  A notification is
    awaited in two steps: the call that makes the promise, and the
    [await] that sees how it settled.  [$errors.fail] may throw or
    return. *)
Class Services : Type := {
  post_answer : list call → result E string;
  notification_answer : list call → result E unit;
  fail_answer : list call → result E unit
}.

Context {notification : IiOSNotification} {services : Services}.

Definition is_Err {A} (answer : result E A) : Prop :=
  match answer with
  | Ok _ => False
  | Err _ => True
  end.

(** The state is the journal of calls. *)
Definition M (A : Type) : Type := list call → result E A * list call.

Definition ret {A} (a : A) : M A := λ j, (Ok a, j).

Definition bind {A B} (m : M A) (k : A → M B) : M B :=
  λ j, match m j with
       | (Ok a, j') => k a j'
       | (Err e, j') => (Err e, j')
       end.

#[global] Instance M_ret : MRet M := @ret.
#[global] Instance M_bind : MBind M := λ A B k m, bind m k.

(** [try { body } catch (e) { handler }] *)
Definition try_catch {A} (body : M A) (handler : E → M A) : M A :=
  λ j, match body j with
       | (Ok a, j') => (Ok a, j')
       | (Err e, j') => handler e j'
       end.

Definition postNotification (deviceId name : string)
    (commandType : option string) : M string :=
  λ j, let j' := j ++ [PostNotification deviceId name commandType] in
       (post_answer j', j').

(** The promise made by [awaitNotification]. *)
Inductive promise : Type := Pending.

Definition awaitNotification (deviceId : string) (socket timeout : number)
    : M promise :=
  λ j, (Ok Pending, j ++ [AwaitNotification deviceId socket timeout]).

Definition await (p : promise) : M unit :=
  λ j, (notification_answer j, j).

Definition fail (message : string) : M unit :=
  λ j, let j' := j ++ [Fail message] in (fail_answer j', j').

Definition advice (appId deviceId : string) : string :=
  "The application " +:+ appId +:+ " does not appear to be running on "
  +:+ deviceId
  +:+ " or is not built with debugging enabled."
  +:+ " Try starting the application manually.".

Definition executeRequest (mainRequestName readyRequestName appId deviceId : string)
    (timeout : number) : M bool :=
  try_catch
    (socket ← postNotification deviceId readyRequestName
                (Some IOS_OBSERVE_NOTIFICATION_COMMAND_TYPE);
     notificationPromise ← awaitNotification deviceId (unary_plus socket) timeout;
     postNotification deviceId mainRequestName None;;
     await notificationPromise;;
     mret true)
    (λ e, fail (advice appId deviceId);; mret false).

Definition executeAttachRequest (device : IiOSDevice) (timeout : number)
    (appId : string) : M unit :=
  let deviceId := identifier (deviceInfo device) in
  let mainRequestName := getAttachRequest appId deviceId in
  let readyRequestName := getReadyForAttach appId in
  executeRequest mainRequestName readyRequestName appId deviceId timeout;;
  mret tt.

Definition executeRefreshRequest (device : IiOSDevice) (appId : string)
    : M bool :=
  let deviceId := identifier (deviceInfo device) in
  let mainRequestName := getRefreshRequest appId in
  let readyRequestName := getAppRefreshStarted appId in
  let timeout := number_of_Z 5 in
  result ← executeRequest mainRequestName readyRequestName appId deviceId timeout;
  mret result.

End Executor.

(** ** A sample device *)

Module Sample.

Definition digit (c : Ascii.ascii) : Z := Z.of_nat (Ascii.nat_of_ascii c) - 48.

(** The number a string of decimal digits stands for. *)
Fixpoint decimal_from (n : Z) (s : string) : Z :=
  match s with
  | EmptyString => n
  | String c rest => decimal_from (10 * n + digit c) rest
  end.

Definition decimal (s : string) : Z := decimal_from 0 s.

#[global] Instance given : Given := {|
  number := Z;
  number_of_Z := id;
  unary_plus := decimal;
  E := string;
  IOS_OBSERVE_NOTIFICATION_COMMAND_TYPE := "ObserveNotification"
|}.

#[global] Instance names : IiOSNotification := {|
  getAttachRequest appId deviceId := appId +:+ ":" +:+ deviceId +:+ ":AttachRequest";
  getReadyForAttach appId := appId +:+ ":ReadyForAttach";
  getRefreshRequest appId := appId +:+ ":RefreshRequest";
  getAppRefreshStarted appId := appId +:+ ":AppRefreshStarted"
|}.

(** A device that answers every post with socket 7 and sends the
    notification; [$errors.fail] throws. *)
Definition attentive : Services := {|
  post_answer _ := Ok "7";
  notification_answer _ := Ok tt;
  fail_answer _ := Err "failed"
|}.

(** A device that answers the posts and never sends the notification. *)
Definition silent : Services := {|
  post_answer _ := Ok "7";
  notification_answer _ := Err "timeout";
  fail_answer _ := Err "failed"
|}.

Definition phone : IiOSDevice := {| deviceInfo := {| identifier := "udid" |} |}.

End Sample.

End IOSSocket.

(** * Runs of file system calls that stop at the first failure *)

Module SnapshotJournal.
Import Snapshot.

Definition all_succeeded (ops : list (fs_op * bool)) : Prop :=
  Forall (λ o, o.2 = true) ops.

(** The calls added by a run all succeeded when it returns, and when it
    throws, the error is that of the last call, the only one that failed. *)
Definition stops_at_failure {A} (w : world) (out : result fs_error A * world)
    : Prop :=
  ∃ new, journal out.2 = journal w ++ new
         ∧ match out.1 with
           | Ok _ => all_succeeded new
           | Err (FsError op) =>
               ∃ before, new = before ++ [(op, false)] ∧ all_succeeded before
           end.

End SnapshotJournal.

(** * The package manager over npm *)

Module NodePackageManager.

(** [opts?: INpmInstallOptions] *)
Record INpmInstallOptions : Type := {
  pathToSave : option string;
  version : option string
}.

(** What the code takes as given: the errors that are thrown;
    [npm.cache], [options.frameworkPath] and [process.cwd()];
    [path.join] on strings, [path.dirname] and the [TypeError] of
    [path.join] on a value that is no string; [semver.inc] and
    [constants.ReleaseType.MINOR]; the text of [null] or of a string in a
    concatenation. *)
Class Given : Type := {
  E : Type;
  npm_cache : string;
  frameworkPath : option string;
  cwd : string;
  path_join : list string → string;
  path_dirname : string → string;
  type_error : E;
  semver_inc : option string → string → option string;
  MINOR : string;
  text : option string → string
}.

Section Manager.

Context {given : Given}.

(** The commands given to npm, the lock file, the logger and [$errors]. *)
Inductive call : Type :=
  | Lock
  | Unlock
  | NpmInstall (where_ packageName : string)
  | NpmView (packageName : string)
  | CacheAdd (packageName : string) (version : option string)
  | CacheUnpack (packageName : string) (version : option string)
      (unpackTarget : string)
  | LoggerOut (text1 text2 : string)
  | LoggerTrace (version : option string)
  | LoggerDebug (error : E)
  | Fail (format message : string) (error : E).

(** The collaborators: what each command answers, given all commands
    made up to and including it, and what the file system and the module
    resolution say after the commands made so far. *)
Class Services : Type := {
  lock_answer : list call → result E unit;
  unlock_answer : list call → result E unit;
  install_answer : list call → result E unit;
  view_answer : list call → result E (list string);
  cache_add_answer : list call → result E unit;
  unpack_answer : list call → result E unit;
  fail_answer : list call → result E unit;
  stats_isFile : list call → string → result E bool;
  stats_isDirectory : list call → string → result E bool;
  read_directory : list call → string → result E (list string);
  file_exists : list call → string → result E bool;
  enumerate_files : list call → string → result E (list string);
  resolve_sync : list call → string → string → result E string
}.

Context {services : Services}.

Definition M (A : Type) : Type := list call → result E A * list call.

Definition ret {A} (a : A) : M A := λ j, (Ok a, j).

Definition throw {A} (e : E) : M A := λ j, (Err e, j).

Definition bind {A B} (m : M A) (k : A → M B) : M B :=
  λ j, match m j with
       | (Ok a, j') => k a j'
       | (Err e, j') => (Err e, j')
       end.

#[global] Instance M_ret : MRet M := @ret.
#[global] Instance M_bind : MBind M := λ A B k m, bind m k.

(** [try { body } catch (e) { handler }] *)
Definition try_catch {A} (body : M A) (handler : E → M A) : M A :=
  λ j, match body j with
       | (Ok a, j') => (Ok a, j')
       | (Err e, j') => handler e j'
       end.

(** [try { body } finally { cleanup }]: the cleanup runs in any case, and
    what it throws replaces the outcome of the body. *)
Definition try_finally {A} (body : M A) (cleanup : M unit) : M A :=
  λ j, let '(outcome, j1) := body j in
       match cleanup j1 with
       | (Ok _, j2) => (outcome, j2)
       | (Err e, j2) => (Err e, j2)
       end.

(** A command: it is journaled, then answered. *)
Definition command {A} (c : call) (answer : list call → result E A) : M A :=
  λ j, (answer (j ++ [c]), j ++ [c]).

(** A question to the file system or to the module resolution. *)
Definition ask {A} (answer : list call → result E A) : M A :=
  λ j, (answer j, j).

(** [path.join] on values of which some may be [undefined] or [null]. *)
Definition join (parts : list (option string)) : M string :=
  match mapM id parts with
  | Some strings => mret (path_join strings)
  | None => throw type_error
  end.

Definition NPM_LOAD_FAILED : string :=
  "Failed to retrieve data from npm. Please try again a little bit later.".

Definition getCachedPackagePath (packageName : string) (version : option string)
    : M string :=
  join [Some npm_cache; Some packageName; version; Some "package"].

Definition isPackageCached (packagePath : string) : M bool :=
  ask (λ j, file_exists j packagePath).

Definition isPackageUnpacked (packagePath : string) : M bool :=
  isDirectory ← ask (λ j, stats_isDirectory j packagePath);
  if isDirectory : bool
  then files ← ask (λ j, enumerate_files j packagePath);
       mret (1 <? length files)%nat
  else mret false.

Definition addToCacheCore (packageName : string) (version : option string)
    : M unit :=
  command (CacheAdd packageName version) cache_add_answer.

Definition cacheUnpack (packageName : string) (version : option string)
    (unpackTarget : option string) : M unit :=
  target ← (if JS.truthy unpackTarget then mret (default "" unpackTarget)
            else join [Some npm_cache; Some packageName; version; Some "package"]);
  command (CacheUnpack packageName version target) unpack_answer.

Definition addToCache (packageName : string) (version : option string)
    : M unit :=
  addToCacheCore packageName version;;
  packagePath ← join [Some npm_cache; Some packageName; version; Some "package"];
  unpacked ← isPackageUnpacked packagePath;
  if unpacked : bool then mret tt else cacheUnpack packageName version None.

Definition getLatestVersion (packageName : string) : M (option string) :=
  keys ← command (NpmView packageName) view_answer;
  let latestVersion := head keys in
  command (LoggerTrace latestVersion) (λ _, Ok tt);;
  mret latestVersion.

Definition npmInstall (packageName pathToSave : string) (version : option string)
    : M unit :=
  command (LoggerOut "Installing " packageName) (λ _, Ok tt);;
  let incrementedVersion := semver_inc version MINOR in
  let packageName :=
    if negb (JS.truthy frameworkPath) && Resolver.no_at packageName
    then packageName +:+ "@<" +:+ text incrementedVersion
    else packageName in
  command (NpmInstall pathToSave packageName) install_answer;;
  command (LoggerOut "Installed " packageName) (λ _, Ok tt).

Definition installCore (packageName pathToSave : string) (version : option string)
    : M string :=
  if JS.truthy frameworkPath
  then
    isFile ← ask (λ j, stats_isFile j (default "" frameworkPath));
    if isFile : bool
    then
      npmInstall packageName pathToSave version;;
      pathToNodeModules ← join [Some pathToSave; Some "node_modules"];
      folders ← ask (λ j, read_directory j pathToNodeModules);
      join [Some pathToNodeModules; head folders]
    else mret (default "" frameworkPath)
  else
    try_catch
      (packageFile ← ask (λ j, resolve_sync j packageName cwd);
       let packageDir := path_dirname packageFile in
       mret (Some packageDir))
      (λ ex, mret None)
    ≫= λ resolved,
      match resolved with
      | Some packageDir => mret packageDir
      | None =>
          version ← (if JS.truthy version then mret version
                     else getLatestVersion packageName);
          packagePath ← getCachedPackagePath packageName version;
          cached ← isPackageCached packagePath;
          (if cached : bool then mret tt
           else addToCacheCore packageName version);;
          unpacked ← isPackageUnpacked packagePath;
          (if unpacked : bool then mret tt
           else cacheUnpack packageName version None);;
          mret packagePath
      end.

(** The value is [undefined] when [$errors.fail] returns. *)
Definition install (packageName : string) (opts : option INpmInstallOptions)
    : M (option string) :=
  command Lock lock_answer;;
  try_finally
    (try_catch
       (let packageToInstall := packageName in
        let pathToSave :=
          default "" (JS.or (opts ≫= pathToSave) (Some npm_cache)) in
        let version :=
          if JS.truthy (opts ≫= version) then opts ≫= version else None in
        path ← installCore packageToInstall pathToSave version;
        mret (Some path))
       (λ error,
          command (LoggerDebug error) (λ _, Ok tt);;
          command (Fail "%s. Error: %s" NPM_LOAD_FAILED error) fail_answer;;
          mret None))
    (command Unlock unlock_answer).

(** The commands a run from [j] to [j'] has added. *)
Definition issued (j j' : list call) : list call := drop (length j) j'.

(** A computation that only adds commands, all of a given kind. *)
Definition emits {A} (kind : call → Prop) (m : M A) : Prop :=
  ∀ j, ∃ new, (m j).2 = j ++ new ∧ Forall kind new.

Definition is_Err {A} (answer : result E A) : Prop :=
  match answer with
  | Ok _ => False
  | Err _ => True
  end.

(** The commands of [installCore]: output of the logger, and commands to
    npm about the package it was asked for, an install being one into the
    directory and of the name it was given. *)
Definition core_call (packageName pathToSave : string) (c : call) : Prop :=
  match c with
  | NpmInstall where_ name => where_ = pathToSave ∧ name = packageName
  | NpmView name | CacheAdd name _ | CacheUnpack name _ _ => name = packageName
  | LoggerOut _ _ | LoggerTrace _ => True
  | Lock | Unlock | LoggerDebug _ | Fail _ _ _ => False
  end.

(** The commands of an installation at a given version: the latest
    version is not asked for, and what is added to the cache or unpacked
    is that version, unpacked into its place in the cache. *)
Definition for_version (packageName v : string) (c : call) : Prop :=
  match c with
  | NpmView _ => False
  | CacheAdd _ version => version = Some v
  | CacheUnpack _ version target =>
      version = Some v
      ∧ target = path_join [npm_cache; packageName; v; "package"]
  | _ => True
  end.

(** The arguments [install] hands to [installCore]. *)
Definition pathToSave_of (opts : option INpmInstallOptions) : string :=
  default "" (JS.or (opts ≫= pathToSave) (Some npm_cache)).

Definition version_of (opts : option INpmInstallOptions) : option string :=
  if JS.truthy (opts ≫= version) then opts ≫= version else None.

End Manager.

(** ** A sample of npm *)

Module Sample.

#[global] Instance given : Given := {|
  E := string;
  npm_cache := "/cache";
  frameworkPath := None;
  cwd := "/work";
  path_join := String.concat "/";
  path_dirname file := file +:+ "/..";
  type_error := "TypeError";
  semver_inc v _ := v;
  MINOR := "minor";
  text v := default "null" v
|}.

(** The module is found from the working directory. *)
Definition local : Services := {|
  lock_answer _ := Ok tt;
  unlock_answer _ := Ok tt;
  install_answer _ := Ok tt;
  view_answer _ := Ok ["2.0.0"];
  cache_add_answer _ := Ok tt;
  unpack_answer _ := Ok tt;
  fail_answer _ := Err "failed";
  stats_isFile _ _ := Ok false;
  stats_isDirectory _ _ := Ok true;
  read_directory _ _ := Ok [];
  file_exists _ _ := Ok true;
  enumerate_files _ _ := Ok ["package.json"; "index.js"];
  resolve_sync _ name basedir :=
    Ok (basedir +:+ "/node_modules/" +:+ name +:+ "/index.js")
|}.

(** The module is not found, nothing is cached and npm cannot be
    reached. *)
Definition unreachable : Services := {|
  lock_answer _ := Ok tt;
  unlock_answer _ := Ok tt;
  install_answer _ := Err "ENOTFOUND";
  view_answer _ := Err "ENOTFOUND";
  cache_add_answer _ := Err "ENOTFOUND";
  unpack_answer _ := Err "ENOTFOUND";
  fail_answer _ := Err "failed";
  stats_isFile _ _ := Err "ENOENT";
  stats_isDirectory _ _ := Err "ENOENT";
  read_directory _ _ := Err "ENOENT";
  file_exists _ _ := Ok false;
  enumerate_files _ _ := Err "ENOENT";
  resolve_sync _ _ _ := Err "MODULE_NOT_FOUND"
|}.

Definition at_version (v : string) : option INpmInstallOptions :=
  Some {| pathToSave := None; version := Some v |}.

End Sample.

End NodePackageManager.

(** * Theorems *)

Module JSTheory.
Import JS.

Lemma truthy_nonempty s : s <> "" -> truthy (Some s) = true.
Proof.
  intros H. simpl. destruct (String.eqb_spec s ""); [contradiction|reflexivity].
Qed.

End JSTheory.

Module SnapshotTheory.
Import Snapshot.

(** ** Lookup equations of the tree operations *)

Lemma relative_Some (p k r : path) : relative p k = Some r ↔ k = p ++ r.
Proof.
  revert k. induction p as [|x p IH]; intros k; simpl.
  - split; congruence.
  - destruct k as [|y k]; [split; discriminate|].
    destruct (decide (x = y)) as [->|Hne].
    + rewrite IH. split; congruence.
    + split; [discriminate|]. intros [= ? ?]. congruence.
Qed.

Lemma relative_app (p r : path) : relative p (p ++ r) = Some r.
Proof. by apply relative_Some. Qed.

Lemma elem_of_ancestors (k p : path) : k ∈ ancestors p ↔ k `prefix_of` p.
Proof.
  revert k. induction p as [|x p IH]; intros k; simpl.
  - rewrite list_elem_of_singleton. split.
    + intros ->. done.
    + intros H. by apply prefix_nil_inv.
  - rewrite elem_of_cons, list_elem_of_fmap. split.
    + intros [->|(k' & -> & Hk')]; [apply prefix_nil|].
      apply prefix_cons. by apply IH.
    + destruct k as [|y k]; [by left|]. intros H. right.
      exists k. split.
      * f_equal. by apply prefix_cons_inv_1 in H.
      * apply IH. by apply prefix_cons_inv_2 in H.
Qed.

Lemma wf_check_sound (t : fstree) : wf_check t = true → wf t.
Proof.
  intros H%bool_decide_eq_true k r Hk.
  destruct (t !! (k ++ r)) as [e|] eqn:E; [|done].
  apply H in E. rewrite Forall_forall in E.
  destruct (E k) as [x Hx]; [|congruence].
  apply elem_of_ancestors. by apply prefix_app_r.
Qed.

Lemma lookup_tree_delete (p : path) (t : fstree) (k : path) :
  tree_delete p t !! k = if decide (p `prefix_of` k) then None else t !! k.
Proof.
  unfold tree_delete. destruct (decide (p `prefix_of` k)) as [Hp|Hp].
  - apply map_lookup_filter_None. right. intros e _ Hn. by apply Hn.
  - destruct (t !! k) as [e|] eqn:E.
    + by apply map_lookup_filter_Some.
    + apply map_lookup_filter_None. by left.
Qed.

Lemma lookup_tree_mkdir (p : path) (t : fstree) (k : path) :
  tree_mkdir p t !! k =
    match t !! k with
    | Some e => Some e
    | None => if decide (k `prefix_of` p) then Some EDir else None
    end.
Proof.
  unfold tree_mkdir. rewrite lookup_union, lookup_gset_to_gmap.
  destruct (t !! k) as [e|]; simpl.
  - by destruct (guard _ ≫= _).
  - destruct (decide (k `prefix_of` p)) as [Hp|Hp].
    + rewrite option_guard_True; [done|].
      apply elem_of_list_to_set. by apply elem_of_ancestors.
    + rewrite option_guard_False; [done|].
      rewrite elem_of_list_to_set. by rewrite elem_of_ancestors.
Qed.

Lemma lookup_tree_copy (src dst : path) (t : fstree) (k : path) :
  tree_copy src dst t !! k =
    match relative (child dst (basename src)) k with
    | Some r => match t !! (src ++ r) with
                | Some e => Some e
                | None => t !! k
                end
    | None => t !! k
    end.
Proof.
  unfold tree_copy. set (new := child dst (basename src)).
  apply (map_fold_weak_ind (λ acc (m : fstree),
    acc !! k = match relative new k with
               | Some r => match m !! (src ++ r) with
                           | Some e => Some e
                           | None => t !! k
                           end
               | None => t !! k
               end)).
  - destruct (relative new k); [by rewrite lookup_empty|done].
  - intros i e m acc Hi IH.
    destruct (relative src i) as [ri|] eqn:Ei.
    + apply relative_Some in Ei as ->.
      destruct (decide (new ++ ri = k)) as [<-|Hne].
      * by rewrite lookup_insert_eq, relative_app, lookup_insert_eq.
      * rewrite lookup_insert_ne by done. rewrite IH.
        destruct (relative new k) as [r|] eqn:Ek; [|done].
        apply relative_Some in Ek as ->.
        rewrite lookup_insert_ne; [done|]. intros Heq.
        apply (inj (src ++.)) in Heq. congruence.
    + rewrite IH. destruct (relative new k) as [r|]; [|done].
      rewrite lookup_insert_ne; [done|]. intros ->.
      by rewrite relative_app in Ei.
Qed.

(** ** Paths *)

Lemma basename_child (d : path) (f : string) : basename (child d f) = f.
Proof. unfold basename, child. by rewrite last_snoc. Qed.

Lemma join_prefix_child (P : path) (f n : string) (r : path) :
  child P f `prefix_of` P ++ n :: r ↔ f = n.
Proof.
  unfold child. split.
  - intros H. apply prefix_app_inv in H. by apply prefix_cons_inv_1 in H.
  - intros ->. apply prefix_app, prefix_cons, prefix_nil.
Qed.

Lemma join_assoc (P : path) (f : string) (r : path) :
  child P f ++ r = P ++ f :: r.
Proof. unfold child. by rewrite <- app_assoc. Qed.

Lemma prefix_join_inv (a P : path) (f : string) :
  a `prefix_of` child P f → a `prefix_of` P ∨ a = child P f.
Proof.
  unfold child. intros [r Hr].
  destruct r as [|x r _] using rev_ind.
  - right. by rewrite app_nil_r in Hr.
  - left. rewrite app_assoc in Hr. apply app_inj_tail in Hr as [-> _].
    by exists r.
Qed.

(** ** Folder names

    On a folder name [path.join] has nothing to normalize: it gives the
    entry of that name. *)

Lemma segments_name (f : string) : no_separator f = true → segments f = [f].
Proof.
  induction f as [|c f IH]; simpl; [done|].
  intros [Hc Hf]%andb_true_iff. apply negb_true_iff in Hc.
  by rewrite Hc, IH.
Qed.

Lemma path_join_name (d : path) (f : string) :
  folder_name f = true → path_join d f = child d f.
Proof.
  unfold folder_name, path_join. intros H.
  apply andb_true_iff in H as [H Hsep]. apply andb_true_iff in H as [H H3].
  apply andb_true_iff in H as [H1 H2]. apply negb_true_iff in H1, H2, H3.
  rewrite (segments_name _ Hsep). simpl. unfold resolve.
  by rewrite H1, H2, H3.
Qed.

Lemma folder_names_elem (F : list string) (f : string) :
  folder_names F → f ∈ F → folder_name f = true.
Proof. unfold folder_names. rewrite Forall_forall. auto. Qed.

Lemma separate_apart (F : list string) (B P : path) :
  folder_names F → separate F B P → apart F B P.
Proof.
  intros HF [H1 H2]. split; [done|]. intros f Hf.
  rewrite <- (path_join_name P f); [by apply H2|]. by eapply folder_names_elem.
Qed.

Lemma restore_step_name (B P : path) (t : fstree) (f : string) :
  folder_name f = true → restore_step B P t f = restore_folder B P t f.
Proof.
  intros Hf. unfold restore_step, restore_folder.
  by rewrite !(path_join_name _ _ Hf).
Qed.

Lemma backup_step_name (B P : path) (t : fstree) (f : string) :
  folder_name f = true → backup_step B P t f = backup_folder B P t f.
Proof.
  intros Hf. unfold backup_step, backup_folder.
  by rewrite !(path_join_name _ _ Hf).
Qed.

Lemma foldl_agree {A} (step pure : A → string → A) (F : list string) (a : A) :
  (∀ a f, f ∈ F → step a f = pure a f) → foldl step a F = foldl pure a F.
Proof.
  revert a. induction F as [|f F IH]; intros a H; simpl; [done|].
  rewrite H by left. apply IH. intros a' g Hg. apply H. by right.
Qed.

Lemma foldl_invariant {A X} (Φ : A → Prop) (f : A → X → A) (xs : list X) (a : A) :
  (∀ a x, x ∈ xs → Φ a → Φ (f a x)) → Φ a → Φ (foldl f a xs).
Proof.
  revert a. induction xs as [|x xs IH]; intros a Hf Ha; simpl; [done|].
  apply IH.
  - intros a' y Hy. apply Hf. by right.
  - apply Hf; [by left|done].
Qed.

(** ** Stepping through the monad *)

Lemma bind_Ok {A B} (m : M A) (k : A → M B) (w : world) b w' :
  (m ≫= k) w = (Ok b, w') → ∃ a w1, m w = (Ok a, w1) ∧ k a w1 = (Ok b, w').
Proof.
  unfold mbind, M_bind, bind. destruct (m w) as [[a|e] w1]; [|discriminate].
  intros H. by exists a, w1.
Qed.

Lemma for_of_invariant {A} (Φ : world → Prop) (body : A → M unit) xs w :
  (∀ x w, x ∈ xs → Φ w → Φ (body x w).2) → Φ w → Φ (for_of xs body w).2.
Proof.
  revert w. induction xs as [|x xs IH]; intros w Hbody Hw; simpl; [done|].
  unfold mbind, M_bind, bind.
  pose proof (Hbody x w (list_elem_of_here _ _) Hw) as H1.
  destruct (body x w) as [[[]|e] w1]; simpl in *; [|done].
  apply IH; [|done]. intros y w2 Hy. apply Hbody. by right.
Qed.

Lemma for_of_Ok {A} (body : A → M unit) (pure : fstree → A → fstree) xs w w' :
  (∀ x w w', body x w = (Ok tt, w') → tree w' = pure (tree w) x) →
  for_of xs body w = (Ok tt, w') → tree w' = foldl pure (tree w) xs.
Proof.
  intros Hbody. revert w. induction xs as [|x xs IH]; intros w; simpl.
  - by intros [= <-].
  - intros H. apply bind_Ok in H as ([] & w1 & H1 & H2).
    apply IH in H2. apply Hbody in H1. by rewrite <- H1.
Qed.

Section Runs.

Variable fault : nat → bool.

Lemma attempt_cases op effect w :
  attempt fault op effect w
    = (Err (FsError op), World (tree w) (journal w ++ [(op, false)]))
  ∨ attempt fault op effect w
    = (Ok tt, World (effect (tree w)) (journal w ++ [(op, true)])).
Proof. unfold attempt. destruct (fault _); [by left|by right]. Qed.

(** Every tree a restore can leave, failed or not, is reached from the
    initial one by deletions of listed project folders and copies of
    their backups. *)
Lemma restoreFolder_invariant (Φ : fstree → Prop) (B P : path) (f : string)
    (w : world) :
  (∀ t, Φ t → Φ (tree_delete (path_join P f) t)) →
  (∀ t, Φ t → Φ (tree_copy (path_join B f) P t)) →
  Φ (tree w) → Φ (tree (restoreFolder fault B P f w).2).
Proof.
  intros Hdel Hcopy Hw. unfold restoreFolder, deleteDirectory, copyFile.
  unfold mbind, M_bind, bind.
  destruct (attempt_cases (OpDelete (path_join P f))
              (tree_delete (path_join P f)) w) as [->| ->]; [done|].
  simpl. destruct (tree_exists _ _); [|by apply Hdel].
  match goal with |- context [attempt fault ?o ?e ?w] =>
    destruct (attempt_cases o e w) as [->| ->] end; simpl; auto.
Qed.

Lemma restoreBackup_invariant (Φ : fstree → Prop) (F : list string)
    (B P : path) (w : world) :
  (∀ f t, f ∈ F → Φ t → Φ (tree_delete (path_join P f) t)) →
  (∀ f t, f ∈ F → Φ t → Φ (tree_copy (path_join B f) P t)) →
  Φ (tree w) → Φ (tree (restoreBackup fault F B P w).2).
Proof.
  intros Hdel Hcopy Hw. unfold restoreBackup.
  apply (for_of_invariant (λ w, Φ (tree w))); [|done].
  intros f w1 Hf Hw1. apply restoreFolder_invariant; eauto.
Qed.

(** Deleting or restoring a folder name touches nothing outside the
    entry of that name. *)
Lemma restoreBackup_outside (F : list string) (B P : path) (w : world) (k : path) :
  folder_names F →
  (∀ f, f ∈ F → ¬ child P f `prefix_of` k) →
  tree (restoreBackup fault F B P w).2 !! k = tree w !! k.
Proof.
  intros HF Hk.
  apply (restoreBackup_invariant (λ t, t !! k = tree w !! k)); [| |done].
  - intros f t Hf <-.
    rewrite (path_join_name _ _ (folder_names_elem _ _ HF Hf)).
    rewrite lookup_tree_delete.
    destruct (decide _) as [Hp|]; [|done]. by apply Hk in Hp.
  - intros f t Hf <-.
    rewrite (path_join_name _ _ (folder_names_elem _ _ HF Hf)).
    rewrite lookup_tree_copy, basename_child.
    destruct (relative _ k) as [r|] eqn:E; [|done].
    apply relative_Some in E. destruct (Hk f Hf). by exists r.
Qed.

(** The journal only grows, and a restore issues nothing but the
    three calls of its loop body on listed folders. *)
Lemma restoreBackup_journal (F : list string) (B P : path) (w : world) :
  ∃ new, journal (restoreBackup fault F B P w).2 = journal w ++ new
         ∧ Forall (restore_call F B P) new.
Proof.
  unfold restoreBackup.
  apply (for_of_invariant (λ w', ∃ new, journal w' = journal w ++ new
                                 ∧ Forall (restore_call F B P) new)).
  - intros f w1 Hf (new & Hnew & Hall).
    assert (Hd : restore_call F B P (OpDelete (path_join P f), false)
               ∧ restore_call F B P (OpDelete (path_join P f), true)
               ∧ restore_call F B P (OpExists (path_join B f), true)
               ∧ restore_call F B P (OpCopy (path_join B f) P, false)
               ∧ restore_call F B P (OpCopy (path_join B f) P, true)).
    { repeat split; exists f; simpl; naive_solver. }
    destruct Hd as (Hd1 & Hd2 & He & Hc1 & Hc2).
    unfold restoreFolder, deleteDirectory, copyFile, mbind, M_bind, bind.
    destruct (attempt_cases (OpDelete (path_join P f))
                (tree_delete (path_join P f)) w1) as [->| ->]; simpl.
    { exists (new ++ [(OpDelete (path_join P f), false)]).
      rewrite Hnew, <- app_assoc. split; [done|].
      apply Forall_app; split; [done|]. by constructor. }
    destruct (tree_exists _ _).
    + match goal with |- context [attempt fault ?o ?e ?w] =>
        destruct (attempt_cases o e w) as [->| ->] end; simpl;
        eexists (new ++ [_; _; _]); rewrite Hnew, <- !app_assoc;
        (split; [done|]); apply Forall_app; (split; [done|]);
        repeat constructor; done.
    + exists (new ++ [(OpDelete (path_join P f), true);
                       (OpExists (path_join B f), true)]).
      rewrite Hnew, <- !app_assoc. split; [done|].
      apply Forall_app; split; [done|]. by repeat constructor.
  - exists []. by rewrite app_nil_r.
Qed.

(** A call that returns has done what the specification says. *)
Lemma attempt_Ok op effect w w' :
  attempt fault op effect w = (Ok tt, w') → tree w' = effect (tree w).
Proof.
  destruct (attempt_cases op effect w) as [->| ->]; [discriminate|].
  by intros [= <-].
Qed.

Lemma restoreFolder_Ok (B P : path) (f : string) (w : world) w' :
  restoreFolder fault B P f w = (Ok tt, w') →
  tree w' = restore_step B P (tree w) f.
Proof.
  unfold restoreFolder, restore_step. intros H.
  apply bind_Ok in H as ([] & w1 & H1 & H2).
  apply attempt_Ok in H1.
  apply bind_Ok in H2 as (present & w2 & H2 & H3).
  unfold fs_exists in H2. injection H2 as <- <-. simpl in H3.
  cbv zeta. rewrite <- H1. destruct (tree_exists _ (tree w1)).
  - apply attempt_Ok in H3. by rewrite H3.
  - by injection H3 as <-.
Qed.

(** A restore that returns has run the steps of the loop, on any list. *)
Lemma restoreBackup_steps (F : list string) (B P : path) (w w' : world) :
  restoreBackup fault F B P w = (Ok tt, w') →
  tree w' = foldl (restore_step B P) (tree w) F.
Proof. apply for_of_Ok. intros f w1 w2. apply restoreFolder_Ok. Qed.

(** On folder names these are the steps of the specification. *)
Lemma restoreBackup_Ok (F : list string) (B P : path) (w w' : world) :
  folder_names F →
  restoreBackup fault F B P w = (Ok tt, w') →
  tree w' = restore_tree F B P (tree w).
Proof.
  intros HF H. rewrite (restoreBackup_steps _ _ _ _ _ H). unfold restore_tree.
  apply foldl_agree. intros t f Hf. apply restore_step_name.
  by eapply folder_names_elem.
Qed.

Lemma backupFolder_Ok (B P : path) (f : string) (w : world) w' :
  backupFolder fault B P f w = (Ok tt, w') →
  tree w' = backup_step B P (tree w) f.
Proof.
  unfold backupFolder, backup_step. intros H.
  apply bind_Ok in H as (present & w1 & H1 & H2).
  unfold fs_exists in H1. injection H1 as <- <-. simpl in H2.
  cbv zeta. destruct (tree_exists _ (tree w)).
  - by apply attempt_Ok in H2.
  - by injection H2 as <-.
Qed.

Lemma backupFolder_invariant (Φ : fstree → Prop) (B P : path) (f : string)
    (w : world) :
  (∀ t, Φ t → Φ (tree_copy (path_join P f) B t)) →
  Φ (tree w) → Φ (tree (backupFolder fault B P f w).2).
Proof.
  intros Hcopy Hw. unfold backupFolder, copyFile, mbind, M_bind, bind.
  simpl. destruct (tree_exists _ _); [|done].
  match goal with |- context [attempt fault ?o ?e ?w] =>
    destruct (attempt_cases o e w) as [->| ->] end; simpl; auto.
Qed.

Lemma backup_loop_invariant (Φ : fstree → Prop) (F : list string) (B P : path)
    (w : world) :
  (∀ f t, f ∈ F → Φ t → Φ (tree_copy (path_join P f) B t)) →
  Φ (tree w) → Φ (tree (for_of F (backupFolder fault B P) w).2).
Proof.
  intros Hcopy Hw.
  apply (for_of_invariant (λ w, Φ (tree w))); [|done].
  intros f w1 Hf Hw1. apply backupFolder_invariant; eauto.
Qed.

(** A backup that returns has emptied the backup root and run the steps
    of the loop, on any list. *)
Lemma backup_steps (F : list string) (B P : path) (w w' : world) :
  backup fault F B P w = (Ok tt, w') →
  tree w' = foldl (backup_step B P) (tree_mkdir B (tree_delete B (tree w))) F.
Proof.
  unfold backup. intros H.
  apply bind_Ok in H as ([] & w1 & H1 & H2). apply attempt_Ok in H1.
  apply bind_Ok in H2 as ([] & w2 & H2 & H3). apply attempt_Ok in H2.
  rewrite <- H1, <- H2. revert H3.
  apply for_of_Ok. intros f w3 w4. apply backupFolder_Ok.
Qed.

Lemma backup_Ok (F : list string) (B P : path) (w w' : world) :
  folder_names F →
  backup fault F B P w = (Ok tt, w') →
  tree w' = backup_tree F B P (tree w).
Proof.
  intros HF H. rewrite (backup_steps _ _ _ _ _ H). unfold backup_tree.
  apply foldl_agree. intros t f Hf. apply backup_step_name.
  by eapply folder_names_elem.
Qed.

End Runs.

(** ** Runs without failure *)

Lemma restoreBackup_no_fault (F : list string) (B P : path) (w : world) :
  folder_names F →
  restoreBackup no_fault F B P w
  = (Ok tt, World (restore_tree F B P (tree w))
                  (journal w ++ restore_ops F B P (tree w))).
Proof.
  unfold restoreBackup, restore_tree, folder_names. revert w.
  induction F as [|f F IH]; intros [t j] HF; simpl.
  - by rewrite app_nil_r.
  - apply Forall_cons in HF as [Hf HF].
    unfold mbind, M_bind, bind, restoreFolder, deleteDirectory, copyFile.
    unfold mbind, M_bind, bind, attempt, fs_exists, restore_folder. simpl.
    rewrite !(path_join_name _ _ Hf).
    destruct (tree_exists _ _); simpl; rewrite IH by done; simpl;
      by rewrite <- !app_assoc.
Qed.

Lemma backup_loop_no_fault (F : list string) (B P : path) (w : world) :
  folder_names F →
  for_of F (backupFolder no_fault B P) w
  = (Ok tt, World (foldl (backup_folder B P) (tree w) F)
                  (journal w ++ backup_loop_ops F B P (tree w))).
Proof.
  unfold folder_names. revert w.
  induction F as [|f F IH]; intros [t j] HF; simpl.
  - by rewrite app_nil_r.
  - apply Forall_cons in HF as [Hf HF].
    unfold mbind, M_bind, bind, backupFolder, copyFile.
    unfold mbind, M_bind, bind, attempt, fs_exists, backup_folder. simpl.
    rewrite !(path_join_name _ _ Hf).
    destruct (tree_exists _ _); simpl; rewrite IH by done; simpl;
      by rewrite <- !app_assoc.
Qed.

Lemma backup_no_fault (F : list string) (B P : path) (w : world) :
  folder_names F →
  backup no_fault F B P w
  = (Ok tt, World (backup_tree F B P (tree w))
                  (journal w ++ backup_ops F B P (tree w))).
Proof.
  intros HF.
  unfold backup, backup_tree, backup_ops, deleteDirectory, createDirectory.
  unfold mbind, M_bind, bind, attempt. simpl.
  rewrite backup_loop_no_fault by done. simpl. by rewrite <- !app_assoc.
Qed.

(** ** What the two folds leave alone *)

Lemma backup_fold_invariant (Φ : fstree → Prop) (F : list string) (B P : path)
    (t : fstree) :
  (∀ f t, f ∈ F → Φ t → Φ (tree_copy (child P f) B t)) →
  Φ t → Φ (foldl (backup_folder B P) t F).
Proof.
  intros Hcopy. apply foldl_invariant. intros t' f Hf Ht'.
  unfold backup_folder. destruct (tree_exists _ _); auto.
Qed.

Lemma restore_tree_outside (F : list string) (B P : path) (t : fstree) (k : path) :
  (∀ f, f ∈ F → ¬ child P f `prefix_of` k) →
  restore_tree F B P t !! k = t !! k.
Proof.
  intros Hk. unfold restore_tree.
  apply (foldl_invariant (λ t', t' !! k = t !! k)); [|done].
  intros t' f Hf <-. unfold restore_folder.
  assert (Hdel : tree_delete (child P f) t' !! k = t' !! k).
  { rewrite lookup_tree_delete, decide_False; [done|by apply Hk]. }
  destruct (tree_exists _ _); [|done].
  rewrite lookup_tree_copy, basename_child.
  destruct (relative _ k) as [r|] eqn:E; [|done].
  apply relative_Some in E. destruct (Hk f Hf). by exists r.
Qed.

(** Copies into the backup root write below the folder's slot only. *)
Lemma lookup_copy_outside (src dst : path) (t : fstree) (k : path) :
  ¬ child dst (basename src) `prefix_of` k →
  tree_copy src dst t !! k = t !! k.
Proof.
  intros Hk. rewrite lookup_tree_copy.
  destruct (relative _ k) as [r|] eqn:E; [|done].
  apply relative_Some in E. destruct Hk. by exists r.
Qed.

Lemma backup_fold_outside (F : list string) (B P : path) (t : fstree) (k : path) :
  (∀ f, f ∈ F → ¬ child B f `prefix_of` k) →
  foldl (backup_folder B P) t F !! k = t !! k.
Proof.
  intros Hk.
  apply (backup_fold_invariant (λ t', t' !! k = t !! k)); [|done].
  intros f t' Hf <-. apply lookup_copy_outside.
  rewrite basename_child. by apply Hk.
Qed.

(** Under separation, what lies below the backup root and what lies
    below a listed project folder never overlap. *)
Lemma apart_backup_side (F : list string) (B P : path) (f : string) (k : path) :
  apart F B P → f ∈ F → B `prefix_of` k → ¬ child P f `prefix_of` k.
Proof.
  intros [HBP HF] Hf HB HP.
  destruct (prefix_weak_total _ _ _ HB HP) as [H|H].
  - apply prefix_join_inv in H as [H| ->]; [done|]. by apply (HF f).
  - by apply (HF f).
Qed.

Lemma apart_project_side (F : list string) (B P : path) (f : string) (r : path) :
  apart F B P → f ∈ F →
  ¬ B `prefix_of` child P f ++ r ∧ ¬ child P f ++ r `prefix_of` B.
Proof.
  intros Hsep Hf. split.
  - intros HB. eapply apart_backup_side; [done..|]. by apply prefix_app_r.
  - intros HP. destruct Hsep as [_ HF]. apply (HF f Hf).
    etrans; [|done]. by apply prefix_app_r.
Qed.

Lemma apart_cons (f : string) (F : list string) (B P : path) :
  apart (f :: F) B P → apart F B P.
Proof. intros [H1 H2]. split; [done|]. intros g Hg. apply H2. by right. Qed.

Lemma apart_app (F G : list string) (B P : path) :
  apart (F ++ G) B P → apart F B P ∧ apart G B P.
Proof.
  intros [H1 H2]. split; (split; [done|]); intros g Hg; apply H2;
    apply elem_of_app; auto.
Qed.

Lemma restore_tree_backup_side (F : list string) (B P : path) (t : fstree)
    (k : path) :
  apart F B P → B `prefix_of` k → restore_tree F B P t !! k = t !! k.
Proof.
  intros Hsep HB. apply restore_tree_outside.
  intros f Hf. by eapply apart_backup_side.
Qed.

Lemma backup_tree_project_side (F : list string) (B P : path) (t : fstree)
    (k : path) :
  ¬ B `prefix_of` k → ¬ k `prefix_of` B → backup_tree F B P t !! k = t !! k.
Proof.
  intros HB Hk. unfold backup_tree. rewrite backup_fold_outside.
  - rewrite lookup_tree_mkdir, lookup_tree_delete.
    rewrite decide_False by done.
    destruct (t !! k); [done|]. by rewrite decide_False.
  - intros f Hf Hp. apply HB. etrans; [|done]. by exists [f].
Qed.

(** ** What the two folds put in place *)

Lemma tree_exists_false (p : path) (t : fstree) :
  tree_exists p t = false ↔ t !! p = None.
Proof.
  unfold tree_exists. rewrite bool_decide_eq_false.
  by rewrite eq_None_not_Some.
Qed.

Lemma tree_exists_ext (p q : path) (t u : fstree) :
  t !! p = u !! q → tree_exists p t = tree_exists q u.
Proof. unfold tree_exists. by intros ->. Qed.

Lemma restore_folder_listed (F : list string) (B P : path) (g : string)
    (r : path) (t : fstree) :
  apart F B P → g ∈ F →
  (t !! child B g = None → t !! (child B g ++ r) = None) →
  restore_folder B P t g !! (child P g ++ r) = t !! (child B g ++ r).
Proof.
  intros Hsep Hg Hclosed. unfold restore_folder.
  assert (Hside : ∀ r', tree_delete (child P g) t !! (child B g ++ r')
                        = t !! (child B g ++ r')).
  { intros r'. rewrite lookup_tree_delete, decide_False; [done|].
    eapply apart_backup_side; [done..|].
    unfold child. rewrite <- app_assoc. by apply prefix_app_r. }
  assert (Hgone : tree_delete (child P g) t !! (child P g ++ r) = None).
  { rewrite lookup_tree_delete, decide_True; [done|]. by apply prefix_app_r. }
  destruct (tree_exists _ _) eqn:E.
  - rewrite lookup_tree_copy, basename_child, relative_app, Hside, Hgone.
    by destruct (t !! (child B g ++ r)).
  - apply tree_exists_false in E.
    pose proof (Hside []) as H0. rewrite app_nil_r in H0.
    rewrite Hgone, Hclosed; [done|]. by rewrite <- H0.
Qed.

Lemma restore_tree_snoc (F : list string) (g : string) (B P : path) (t : fstree) :
  restore_tree (F ++ [g]) B P t = restore_folder B P (restore_tree F B P t) g.
Proof. unfold restore_tree. by rewrite foldl_snoc. Qed.

Lemma restore_folder_other (B P : path) (g f : string) (r : path) (t : fstree) :
  f ≠ g →
  restore_folder B P t g !! (child P f ++ r) = t !! (child P f ++ r).
Proof.
  intros Hne.
  change (restore_folder B P t g) with (restore_tree [g] B P t).
  apply restore_tree_outside. intros g' ->%list_elem_of_singleton.
  rewrite join_assoc, join_prefix_child. congruence.
Qed.

Lemma restore_tree_listed (F : list string) (B P : path) (t : fstree)
    (f : string) (r : path) :
  apart F B P → f ∈ F →
  (t !! child B f = None → t !! (child B f ++ r) = None) →
  restore_tree F B P t !! (child P f ++ r) = t !! (child B f ++ r).
Proof.
  induction F as [|g F IH] using rev_ind; intros Hsep Hf Hclosed.
  { by apply elem_of_nil in Hf. }
  rewrite restore_tree_snoc.
  destruct (apart_app _ _ _ _ Hsep) as [HsepF Hsepg].
  assert (Hside : ∀ r', restore_tree F B P t !! (child B f ++ r')
                        = t !! (child B f ++ r')).
  { intros r'. apply restore_tree_backup_side; [done|].
    unfold child. rewrite <- app_assoc. by apply prefix_app_r. }
  destruct (decide (f = g)) as [->|Hne].
  - rewrite (restore_folder_listed [g]); [apply Hside|done|by left|].
    pose proof (Hside []) as H0. rewrite app_nil_r in H0.
    rewrite H0, Hside. done.
  - rewrite restore_folder_other by done.
    apply IH; [done| |done].
    apply elem_of_app in Hf as [Hf|Hf]; [done|].
    apply list_elem_of_singleton in Hf. contradiction.
Qed.

Lemma backup_tree_snoc (F : list string) (g : string) (B P : path) (t : fstree) :
  backup_tree (F ++ [g]) B P t = backup_folder B P (backup_tree F B P t) g.
Proof. unfold backup_tree. by rewrite foldl_snoc. Qed.

Lemma backup_folder_listed (B P : path) (g : string) (r : path) (t : fstree) :
  (t !! child P g = None → t !! (child P g ++ r) = None) →
  (t !! (child B g ++ r) = None
   ∨ t !! (child B g ++ r) = t !! (child P g ++ r)) →
  backup_folder B P t g !! (child B g ++ r) = t !! (child P g ++ r).
Proof.
  intros Hclosed Hslot. unfold backup_folder.
  destruct (tree_exists _ _) eqn:E.
  - rewrite lookup_tree_copy, basename_child, relative_app.
    destruct (t !! (child P g ++ r)) eqn:E2; [done|].
    by destruct Hslot as [->| ->].
  - apply tree_exists_false in E. rewrite (Hclosed E) in *.
    by destruct Hslot.
Qed.

Lemma backup_folder_other (B P : path) (g f : string) (r : path) (t : fstree) :
  f ≠ g →
  backup_folder B P t g !! (child B f ++ r) = t !! (child B f ++ r).
Proof.
  intros Hne.
  change (backup_folder B P t g) with (foldl (backup_folder B P) t [g]).
  apply backup_fold_outside. intros g' ->%list_elem_of_singleton.
  rewrite join_assoc, join_prefix_child. congruence.
Qed.

Lemma backup_tree_unlisted (F : list string) (B P : path) (t : fstree)
    (n : string) (r : path) :
  n ∉ F → backup_tree F B P t !! (B ++ n :: r) = None.
Proof.
  intros Hn. unfold backup_tree. rewrite backup_fold_outside.
  - rewrite lookup_tree_mkdir, lookup_tree_delete.
    rewrite decide_True by by apply prefix_app_r.
    rewrite decide_False; [done|].
    intros H%prefix_length. rewrite length_app in H. simpl in H. lia.
  - intros f Hf. rewrite join_prefix_child. intros ->. contradiction.
Qed.

Lemma backup_tree_listed (F : list string) (B P : path) (t : fstree)
    (f : string) (r : path) :
  apart F B P → f ∈ F →
  (t !! child P f = None → t !! (child P f ++ r) = None) →
  backup_tree F B P t !! (child B f ++ r) = t !! (child P f ++ r).
Proof.
  induction F as [|g F IH] using rev_ind; intros Hsep Hf Hclosed.
  { by apply elem_of_nil in Hf. }
  rewrite backup_tree_snoc.
  destruct (apart_app _ _ _ _ Hsep) as [HsepF Hsepg].
  destruct (decide (f = g)) as [->|Hne].
  - assert (Hside : ∀ r', backup_tree F B P t !! (child P g ++ r')
                          = t !! (child P g ++ r')).
    { intros r'. destruct (apart_project_side [g] B P g r' Hsepg);
        [by left|]. by apply backup_tree_project_side. }
    pose proof (Hside []) as H0. rewrite app_nil_r in H0.
    rewrite backup_folder_listed, Hside; [done| |].
    + by rewrite H0, Hside.
    + rewrite Hside. destruct (decide (g ∈ F)) as [Hin|Hout].
      * right. by apply IH.
      * left. rewrite join_assoc. by apply backup_tree_unlisted.
  - rewrite backup_folder_other by done.
    apply IH; [done| |done].
    apply elem_of_app in Hf as [Hf|Hf]; [done|].
    apply list_elem_of_singleton in Hf. contradiction.
Qed.

(** ** The journals of runs without failure *)

Lemma issued_app (w : world) (t : fstree) (ops : list (fs_op * bool)) :
  issued w (World t (journal w ++ ops)) = ops.
Proof. unfold issued. simpl. by rewrite drop_app_length. Qed.

Lemma child_inj (d : path) (f g : string) :
  child d f = child d g → f = g.
Proof. unfold child. intros H. by apply app_inj_tail in H as [_ ->]. Qed.

Lemma restore_ops_delete (F : list string) (B P : path) (t : fstree) (f : string) :
  f ∈ F → (OpDelete (child P f), true) ∈ restore_ops F B P t.
Proof.
  revert t. induction F as [|g F IH]; intros t Hf.
  { by apply elem_of_nil in Hf. }
  simpl. apply elem_of_cons in Hf as [->|Hf]; [by left|].
  right. right. apply elem_of_app. right. by apply IH.
Qed.

Lemma restore_ops_copy (F : list string) (B P : path) (t : fstree) (f : string) :
  apart F B P →
  (OpCopy (child B f) P, true) ∈ restore_ops F B P t
  ↔ f ∈ F ∧ tree_exists (child B f) t = true.
Proof.
  revert t. induction F as [|g F IH]; intros t Hsep; simpl.
  { rewrite !elem_of_nil. tauto. }
  assert (Hsepg : apart [g] B P).
  { apply (apart_app [g] F). exact Hsep. }
  assert (Hkeep : ∀ h, tree_exists (child B h) (restore_folder B P t g)
                       = tree_exists (child B h) t).
  { intros h. apply tree_exists_ext.
    apply (restore_tree_backup_side [g]); [done|]. by exists [h]. }
  assert (Hhere : tree_exists (child B g) (tree_delete (child P g) t)
                  = tree_exists (child B g) t).
  { apply tree_exists_ext. rewrite lookup_tree_delete, decide_False; [done|].
    eapply apart_backup_side; [exact Hsepg|by left|by exists [g]]. }
  rewrite !elem_of_cons, elem_of_app, (IH _ (apart_cons _ _ _ _ Hsep)).
  rewrite Hkeep, Hhere. split.
  - intros [H|[H|[H|[H1 H2]]]]; [discriminate..| |by auto].
    destruct (tree_exists (child B g) t) eqn:E.
    + apply list_elem_of_singleton in H. injection H as H.
      apply child_inj in H as ->. by auto.
    + by apply elem_of_nil in H.
  - intros [[->|Hf] He]; [|by auto].
    right. right. left. rewrite He. by left.
Qed.

Lemma backup_loop_ops_copy (F : list string) (B P : path) (t : fstree)
    (f : string) :
  apart F B P →
  (OpCopy (child P f) B, true) ∈ backup_loop_ops F B P t
  ↔ f ∈ F ∧ tree_exists (child P f) t = true.
Proof.
  revert t. induction F as [|g F IH]; intros t Hsep; simpl.
  { rewrite !elem_of_nil. tauto. }
  assert (Hkeep : ∀ h, h ∈ F → tree_exists (child P h) (backup_folder B P t g)
                               = tree_exists (child P h) t).
  { intros h Hh. apply tree_exists_ext.
    change (backup_folder B P t g) with (foldl (backup_folder B P) t [g]).
    apply backup_fold_outside. intros g' _ Hp.
    destruct (apart_project_side (g :: F) B P h [] Hsep) as [HB _];
      [by right|].
    apply HB. rewrite app_nil_r. etrans; [|done]. by exists [g']. }
  rewrite !elem_of_cons, elem_of_app, (IH _ (apart_cons _ _ _ _ Hsep)).
  split.
  - intros [H|[H|[H1 H2]]]; [discriminate| |].
    + destruct (tree_exists (child P g) t) eqn:E.
      * apply list_elem_of_singleton in H. injection H as H.
        apply child_inj in H as ->. by auto.
      * by apply elem_of_nil in H.
    + rewrite Hkeep in H2 by done. by auto.
  - intros [[->|Hf] He].
    + right. left. rewrite He. by left.
    + right. right. by rewrite Hkeep.
Qed.

Import Scenario.

Lemma folders_are_names : folder_names folders.
Proof. by repeat constructor. Defined.

Lemma separate_scenario : separate folders backupDir projectDir.
Proof.
  split.
  - intros H%prefix_length. simpl in H. lia.
  - intros f Hf [r Hr]. unfold folders in Hf.
    repeat (apply elem_of_cons in Hf as [->|Hf]; [discriminate|]).
    by apply elem_of_nil in Hf.
Defined.

Lemma at_backup_wf : wf at_backup.
Proof. apply wf_check_sound. by vm_compute. Defined.

(** What [path.join] does to entries of the list that are no folder
    names. *)
Example path_join_normalizes :
  path_join ["app"] "A/sub" = ["app"; "A"; "sub"]
  ∧ path_join ["app"] "./A//sub/" = ["app"; "A"; "sub"]
  ∧ path_join ["app"] "" = ["app"]
  ∧ path_join ["app"] "A/../B" = ["app"; "B"]
  ∧ path_join ["app"] ".." = []
  ∧ path_join [] ".." = [].
Proof. by repeat split. Qed.

(** ** Frame of a restore *)

(** C9. For a list of folder names: whatever fails or not during a
    restore, an entry of the project root whose name is not in the list
    keeps everything it has, and the calls the restore issues are only
    the deletion, the existence test and the copy-back of listed
    folders. *)
Theorem restore_frame (fault : nat → bool) (F : list string) (B P : path)
    (w : world) (n : string) (r : path) :
  folder_names F → n ∉ F →
  tree (restoreBackup fault F B P w).2 !! (P ++ n :: r) = tree w !! (P ++ n :: r)
  ∧ Forall (restore_call F B P) (issued w (restoreBackup fault F B P w).2).
Proof.
  intros HF Hn. split.
  - apply restoreBackup_outside; [done|]. intros f Hf.
    rewrite join_prefix_child. intros ->. contradiction.
  - destruct (restoreBackup_journal fault F B P w) as (new & Hnew & Hall).
    unfold issued. by rewrite Hnew, drop_app_length.
Qed.

Lemma restore_frame_witness :
  tree restored !! (projectDir ++ "D" :: []) = tree mutated !! (projectDir ++ "D" :: [])
  ∧ Forall (restore_call folders backupDir projectDir) (issued mutated restored).
Proof.
  apply (restore_frame no_fault folders backupDir projectDir mutated "D" []).
  - exact folders_are_names.
  - unfold folders. intros H.
    repeat (apply elem_of_cons in H as [H|H]; [discriminate|]).
    by apply elem_of_nil in H.
Defined.

(** The folder created after the backup is still there after the restore. *)
Example restored_keeps_D : tree restored !! ["app"; "D"] = Some EDir.
Proof. by vm_compute. Qed.

(** An entry of the list that is no folder name reaches further: the
    empty string stands for the project root itself, and restoring it
    deletes the whole project, [D] and the backup included. *)
Example restore_of_empty_name :
  let after := (restoreBackup no_fault [""] backupDir projectDir mutated).2 in
  issued mutated after
  = [(OpDelete projectDir, true); (OpExists backupDir, true)]
  ∧ tree after !! ["app"; "D"] = None
  ∧ tree after !! backupDir = None.
Proof. by vm_compute. Qed.

(** ** Delete always, copy when present *)

(** C7. For a list of folder names, in a run where nothing throws, under
    separation of the two roots: a restore deletes every listed project
    folder whether or not the backup has it, copies back exactly the
    folders the backup has, and so leaves a listed folder present exactly
    when its backup is; a backup copies exactly the listed folders the
    project has, skips the others without failing, and so holds a folder
    exactly when the project does. *)
Theorem backup_restore_asymmetry (F : list string) (B P : path) (w : world) :
  folder_names F → separate F B P →
  ((restoreBackup no_fault F B P w).1 = Ok tt
   ∧ (∀ f, f ∈ F →
        (OpDelete (path_join P f), true)
        ∈ issued w (restoreBackup no_fault F B P w).2)
   ∧ (∀ f, folder_name f = true →
        (OpCopy (path_join B f) P, true)
        ∈ issued w (restoreBackup no_fault F B P w).2
        ↔ f ∈ F ∧ tree_exists (path_join B f) (tree w) = true)
   ∧ (∀ f, f ∈ F →
        tree_exists (path_join P f) (tree (restoreBackup no_fault F B P w).2)
        = tree_exists (path_join B f) (tree w)))
  ∧ ((backup no_fault F B P w).1 = Ok tt
     ∧ (∀ f, folder_name f = true →
          (OpCopy (path_join P f) B, true)
          ∈ issued w (backup no_fault F B P w).2
          ↔ f ∈ F ∧ tree_exists (path_join P f) (tree w) = true)
     ∧ (∀ f, f ∈ F →
          tree_exists (path_join B f) (tree (backup no_fault F B P w).2)
          = tree_exists (path_join P f) (tree w))).
Proof.
  intros HF Hsep%separate_apart; [|done].
  rewrite restoreBackup_no_fault, backup_no_fault by done. simpl.
  rewrite !issued_app.
  assert (Hin : ∀ f, f ∈ F → folder_name f = true).
  { intros f. by apply folder_names_elem. }
  assert (Hinit : ∀ f, f ∈ F →
            tree_exists (child P f) (tree_mkdir B (tree_delete B (tree w)))
            = tree_exists (child P f) (tree w)).
  { intros f Hf. apply tree_exists_ext.
    destruct (apart_project_side F B P f [] Hsep Hf) as [H1 H2].
    rewrite app_nil_r in H1, H2.
    by apply (backup_tree_project_side [] B P (tree w)). }
  split; [split; [done|split; [|split]]|split; [done|split]].
  - intros f Hf. rewrite (path_join_name _ _ (Hin f Hf)).
    by apply restore_ops_delete.
  - intros f Hf. rewrite !(path_join_name _ _ Hf). by apply restore_ops_copy.
  - intros f Hf. rewrite !(path_join_name _ _ (Hin f Hf)).
    apply tree_exists_ext.
    pose proof (restore_tree_listed F B P (tree w) f [] Hsep Hf) as H.
    rewrite !app_nil_r in H. by apply H.
  - intros f Hf. rewrite !(path_join_name _ _ Hf).
    unfold backup_ops. rewrite !elem_of_cons.
    rewrite backup_loop_ops_copy by done. split.
    + intros [H|[H|[Hf' H]]]; [discriminate..|]. by rewrite <- Hinit.
    + intros [Hf' H]. right. right. by rewrite Hinit.
  - intros f Hf. rewrite !(path_join_name _ _ (Hin f Hf)).
    apply tree_exists_ext.
    pose proof (backup_tree_listed F B P (tree w) f [] Hsep Hf) as H.
    rewrite !app_nil_r in H. by apply H.
Qed.

Lemma backup_restore_asymmetry_witness :
  (OpDelete (path_join projectDir "C"), true) ∈ issued mutated restored
  ∧ tree_exists (path_join projectDir "C") (tree restored) = false
  ∧ ¬ (OpCopy (path_join projectDir "C") backupDir, true)
        ∈ issued (World at_backup []) backed_up.
Proof.
  destruct (backup_restore_asymmetry folders backupDir projectDir mutated
              folders_are_names separate_scenario) as [(_ & Hdel & _ & Hgone) _].
  destruct (backup_restore_asymmetry folders backupDir projectDir
              (World at_backup []) folders_are_names separate_scenario)
    as [_ (_ & Hcopy & _)].
  split; [|split].
  - apply (Hdel "C"). unfold folders. right. right. left.
  - unfold restored. rewrite (Hgone "C"); [by vm_compute|].
    unfold folders. right. right. left.
  - intros H. apply (Hcopy "C") in H as [_ H]; [|done]. by vm_compute in H.
Defined.

(** ** Round trip *)

(** C1, as stated, fails on the scenario of the specification: the folder
    [D], which the project did not have at backup time and which was
    created after the backup under a name outside the folder list, is
    still in the project root after the restore. *)
Lemma round_trip_leaves_D :
  tree_exists (child projectDir "D") at_backup = false
  ∧ tree_exists (child projectDir "D") (tree restored) = true
  ∧ ¬ exact_round_trip backupDir projectDir at_backup (tree restored).
Proof.
  split; [by vm_compute|]. split; [by vm_compute|].
  intros H. assert (Hne : child projectDir "D" ≠ backupDir) by discriminate.
  apply H in Hne. by vm_compute in Hne.
Qed.

(** C1, amended. For a list of folder names: when both calls return, the
    roots are separate, the tree at backup time is well formed and the
    changes made in between leave the backup root alone, every listed
    folder is after the restore what it was at backup time (absent if it
    was absent), and every other entry of the project root is what the
    changes made it. *)
Theorem backup_restore_round_trip (fault : nat → bool) (F : list string)
    (B P : path) (w0 w1 w2 w3 : world) :
  folder_names F → separate F B P → wf (tree w0) →
  backup fault F B P w0 = (Ok tt, w1) →
  (∀ k, B `prefix_of` k → tree w2 !! k = tree w1 !! k) →
  restoreBackup fault F B P w2 = (Ok tt, w3) →
  (∀ f r, f ∈ F →
     tree w3 !! (path_join P f ++ r) = tree w0 !! (path_join P f ++ r))
  ∧ (∀ n r, n ∉ F → tree w3 !! (P ++ n :: r) = tree w2 !! (P ++ n :: r)).
Proof.
  intros HF Hsep%separate_apart Hwf Hb Hmut Hr; [|done].
  apply backup_Ok in Hb; [|done]. apply restoreBackup_Ok in Hr; [|done].
  rewrite Hr.
  assert (Hslot : ∀ f r, f ∈ F →
            tree w2 !! (child B f ++ r) = tree w0 !! (child P f ++ r)).
  { intros f r Hf. rewrite Hmut, Hb.
    - apply backup_tree_listed; [done..|]. apply Hwf.
    - unfold child. rewrite <- app_assoc. by apply prefix_app_r. }
  split.
  - intros f r Hf. rewrite (path_join_name _ _ (folder_names_elem _ _ HF Hf)).
    rewrite <- Hslot by done.
    apply restore_tree_listed; [done..|].
    pose proof (Hslot f [] Hf) as H0. rewrite !app_nil_r in H0.
    rewrite H0, Hslot by done. apply Hwf.
  - intros n r Hn. apply restore_tree_outside. intros f Hf.
    rewrite join_prefix_child. intros ->. contradiction.
Qed.

Lemma mutated_keeps_backup (k : path) :
  backupDir `prefix_of` k → tree mutated !! k = tree backed_up !! k.
Proof.
  intros Hk. unfold mutated. simpl.
  rewrite lookup_insert_ne.
  - rewrite lookup_tree_delete, decide_False; [done|].
    intros Hp. destruct Hk as [r1 ->]. destruct Hp as [r2 Hp]. discriminate.
  - intros <-. destruct Hk as [r1 Hk]. discriminate.
Defined.

Lemma backup_restore_round_trip_witness :
  (∀ f r, f ∈ folders →
     tree restored !! (path_join projectDir f ++ r)
     = at_backup !! (path_join projectDir f ++ r))
  ∧ (∀ n r, n ∉ folders →
       tree restored !! (projectDir ++ n :: r)
       = tree mutated !! (projectDir ++ n :: r)).
Proof.
  apply (backup_restore_round_trip no_fault folders backupDir projectDir
           (World at_backup []) backed_up mutated restored).
  - exact folders_are_names.
  - exact separate_scenario.
  - exact at_backup_wf.
  - by vm_compute.
  - exact mutated_keeps_backup.
  - by vm_compute.
Defined.

(** ** A backup that fails *)

Section Failures.

Variable fault : nat → bool.

Lemma backup_loop_journal (F : list string) (B P : path) (w : world) :
  ∃ new, journal (for_of F (backupFolder fault B P) w).2 = journal w ++ new.
Proof.
  apply (for_of_invariant (λ w', ∃ new, journal w' = journal w ++ new)).
  - intros f w1 _ [new Hnew].
    unfold backupFolder, copyFile, mbind, M_bind, bind. simpl.
    destruct (tree_exists _ _); simpl.
    + match goal with |- context [attempt fault ?o ?e ?w] =>
        destruct (attempt_cases fault o e w) as [->| ->] end; simpl;
        eexists (new ++ [_; _]); by rewrite Hnew, <- !app_assoc.
    + eexists (new ++ [_]). by rewrite Hnew, <- !app_assoc.
  - exists []. by rewrite app_nil_r.
Qed.

(** Whatever happens, the first call of a backup deletes the backup root
    and, if that went through, the second recreates it; the loop comes
    after. *)
Lemma backup_starts_by_emptying (F : list string) (B P : path) (w : world) :
  (∃ rest, issued w (backup fault F B P w).2
           = (OpDelete B, true) :: (OpCreate B, true) :: rest)
  ∨ issued w (backup fault F B P w).2 = [(OpDelete B, true); (OpCreate B, false)]
  ∨ issued w (backup fault F B P w).2 = [(OpDelete B, false)].
Proof.
  unfold backup, deleteDirectory, createDirectory, mbind, M_bind, bind, attempt.
  simpl. destruct (fault (length (journal w))); simpl.
  { right. right. unfold issued. simpl. by rewrite drop_app_length. }
  destruct (fault (length (journal w ++ [(OpDelete B, true)]))); simpl.
  { right. left. unfold issued. simpl. by rewrite <- app_assoc, drop_app_length. }
  left.
  destruct (backup_loop_journal F B P
    (World (tree_mkdir B (tree_delete B (tree w)))
       ((journal w ++ [(OpDelete B, true)]) ++ [(OpCreate B, true)])))
    as [new Hnew].
  exists new. unfold issued. rewrite Hnew. simpl.
  by rewrite <- !app_assoc, drop_app_length.
Qed.

(** A backup that fails in a copy has first emptied and recreated the
    backup root. *)
Lemma backup_Err_copy (F : list string) (B P : path) (w w' : world)
    (src dst : path) :
  backup fault F B P w = (Err (FsError (OpCopy src dst)), w') →
  fault (length (journal w)) = false
  ∧ for_of F (backupFolder fault B P)
      (World (tree_mkdir B (tree_delete B (tree w)))
             (journal w ++ [(OpDelete B, true); (OpCreate B, true)]))
    = (Err (FsError (OpCopy src dst)), w').
Proof.
  unfold backup, deleteDirectory, createDirectory, mbind, M_bind, bind, attempt.
  simpl. destruct (fault (length (journal w))); [discriminate|].
  simpl. destruct (fault _); [discriminate|].
  rewrite <- app_assoc. by intros H.
Qed.

Lemma backup_invariant (Φ : fstree → Prop) (F : list string) (B P : path)
    (w : world) :
  fault (length (journal w)) = false →
  Φ (tree_delete B (tree w)) →
  (∀ t, Φ t → Φ (tree_mkdir B t)) →
  (∀ f t, f ∈ F → Φ t → Φ (tree_copy (path_join P f) B t)) →
  Φ (tree (backup fault F B P w).2).
Proof.
  intros Hfault Hdel Hmk Hcopy.
  unfold backup, deleteDirectory, createDirectory, mbind, M_bind, bind, attempt.
  simpl. rewrite Hfault. simpl.
  destruct (fault (length (journal w ++ [(OpDelete B, true)]))); [done|].
  apply backup_loop_invariant; [done|]. simpl. by apply Hmk.
Qed.

(** Once the backup root has been emptied, whatever the call leaves
    below it is a copy it made of a listed project folder. *)
Lemma backup_only_copies (F : list string) (B P : path) (w : world)
    (k : path) (x : entry) :
  folder_names F → apart F B P →
  fault (length (journal w)) = false →
  B `prefix_of` k → k ≠ B →
  tree (backup fault F B P w).2 !! k = Some x →
  ∃ f r, f ∈ F ∧ k = child B f ++ r
         ∧ tree w !! (child P f ++ r) = Some x.
Proof.
  intros HF Hsep Hfault [r Hk] Hne.
  destruct r as [|n r]; [by rewrite app_nil_r in Hk|]. subst k.
  pose (Φ := λ t : fstree,
    (∀ f r', f ∈ F → t !! (child P f ++ r') = tree w !! (child P f ++ r'))
    ∧ (∀ n' r', t !! (B ++ n' :: r') = None
                ∨ (n' ∈ F ∧ t !! (B ++ n' :: r')
                            = tree w !! (child P n' ++ r')))).
  assert (HΦ : Φ (tree (backup fault F B P w).2)).
  { apply backup_invariant; [done| | |].
    - split.
      + intros f r' Hf. rewrite lookup_tree_delete, decide_False; [done|].
        by destruct (apart_project_side F B P f r' Hsep Hf).
      + intros n' r'. left. rewrite lookup_tree_delete, decide_True; [done|].
        by apply prefix_app_r.
    - intros t [HP HB]. split.
      + intros f r' Hf. rewrite lookup_tree_mkdir, HP by done.
        destruct (tree w !! _); [done|]. rewrite decide_False; [done|].
        by destruct (apart_project_side F B P f r' Hsep Hf).
      + intros n' r'. rewrite lookup_tree_mkdir.
        rewrite decide_False.
        * destruct (HB n' r') as [->|[? Heq]]; [by left|].
          right. split; [done|]. rewrite Heq. by destruct (tree w !! _).
        * intros H%prefix_length. rewrite length_app in H. simpl in H. lia.
    - intros g t Hg [HP HB].
      rewrite (path_join_name _ _ (folder_names_elem _ _ HF Hg)). split.
      + intros f r' Hf. rewrite lookup_copy_outside; [by apply HP|].
        rewrite basename_child. intros Hp.
        destruct (apart_project_side F B P f r' Hsep Hf) as [H1 _].
        apply H1. etrans; [|done]. by exists [g].
      + intros n' r'. destruct (decide (n' = g)) as [->|Hng].
        * rewrite <- join_assoc, lookup_tree_copy, basename_child, relative_app.
          rewrite HP by done. destruct (tree w !! (child P g ++ r')) eqn:E.
          -- by right.
          -- rewrite join_assoc. destruct (HB g r') as [->|[? Heq]]; [by left|].
             right. by rewrite Heq, E.
        * rewrite lookup_copy_outside; [apply HB|].
          rewrite basename_child, join_prefix_child. congruence. }
  destruct HΦ as [_ HB]. intros Hx.
  destruct (HB n r) as [Hnone|[Hn Heq]]; [congruence|].
  exists n, r. split; [done|]. split; [by rewrite join_assoc|].
  by rewrite <- Heq.
Qed.

End Failures.

(** C10. A backup first deletes the backup root and recreates it, and only
    then copies.  So when a copy throws, the error is what the call
    returns, the journal starts with the two calls that emptied the
    backup root, the outcome is the same whatever the backup root held
    before, and, for folder names and separate roots, everything left
    below the backup root is a copy this call made of a listed project
    folder. *)
Theorem backup_failure_destroys_previous (fault : nat → bool)
    (F : list string) (B P : path) (w w' : world) (src dst : path) :
  backup fault F B P w = (Err (FsError (OpCopy src dst)), w') →
  (∃ ops, issued w w' = (OpDelete B, true) :: (OpCreate B, true) :: ops)
  ∧ (∀ old : fstree, tree_delete B old = tree_delete B (tree w) →
       backup fault F B P (World old (journal w))
       = (Err (FsError (OpCopy src dst)), w'))
  ∧ (folder_names F → separate F B P →
     ∀ k x, B `prefix_of` k → k ≠ B → tree w' !! k = Some x →
       ∃ f r, f ∈ F ∧ k = path_join B f ++ r
              ∧ tree w !! (path_join P f ++ r) = Some x).
Proof.
  intros H. pose proof (backup_Err_copy fault F B P w w' src dst H) as [Hfault Hloop].
  split; [|split].
  - pose proof (backup_loop_journal fault F B P
      (World (tree_mkdir B (tree_delete B (tree w)))
             (journal w ++ [(OpDelete B, true); (OpCreate B, true)]))) as [new Hnew].
    rewrite Hloop in Hnew. simpl in Hnew. exists new. unfold issued.
    by rewrite Hnew, <- app_assoc, drop_app_length.
  - intros old Hold. rewrite <- H.
    unfold backup, deleteDirectory, mbind, M_bind, bind, attempt. simpl.
    rewrite Hfault. simpl. by rewrite Hold.
  - intros HF Hsep%separate_apart k x Hk Hne Hx; [|done].
    destruct (backup_only_copies fault F B P w k x) as (f & r & Hf & -> & Hr);
      [done..|by rewrite H|].
    exists f, r. by rewrite !(path_join_name _ _ (folder_names_elem _ _ HF Hf)).
Qed.

Lemma backup_failure_destroys_previous_witness :
  (∃ ops, issued (World with_old_backup []) failed.2
          = (OpDelete backupDir, true) :: (OpCreate backupDir, true) :: ops)
  ∧ (∀ old : fstree,
       tree_delete backupDir old = tree_delete backupDir with_old_backup →
       backup first_copy_fails folders backupDir projectDir (World old [])
       = (Err (FsError (OpCopy (path_join projectDir "A") backupDir)), failed.2))
  ∧ (folder_names folders → separate folders backupDir projectDir →
     ∀ k x, backupDir `prefix_of` k → k ≠ backupDir →
       tree failed.2 !! k = Some x →
       ∃ f r, f ∈ folders ∧ k = path_join backupDir f ++ r
              ∧ with_old_backup !! (path_join projectDir f ++ r) = Some x).
Proof.
  apply (backup_failure_destroys_previous first_copy_fails folders backupDir
           projectDir (World with_old_backup []) failed.2
           (path_join projectDir "A") backupDir).
  by vm_compute.
Defined.

(** The earlier backup is gone although the new one was not made. *)
Example failed_backup_lost_old :
  failed.1 = Err (FsError (OpCopy ["app"; "A"] backupDir))
  ∧ with_old_backup !! (backupDir ++ ["old"; "o.txt"]) = Some (EFile "z")
  ∧ tree failed.2 !! (backupDir ++ ["old"; "o.txt"]) = None
  ∧ tree failed.2 !! (backupDir ++ ["A"]) = None.
Proof. by vm_compute. Qed.

End SnapshotTheory.

Module DependencyQueryTheory.
Import DependencyQuery.

Lemma truthy_or (a b : option value) :
  truthy (or a b) = truthy a || truthy b.
Proof. unfold or. by destruct (truthy a) eqn:E. Qed.

(** A key whose version is not empty is truthy; a key the mapping does
    not have is truthy exactly when [Object.prototype] has it. *)
Lemma index_truthy (m : gmap string string) (key : string) :
  m !! key ≠ Some "" →
  truthy (index m key) = true ↔ is_Some (m !! key) ∨ inherited key = true.
Proof.
  intros Hne. unfold index. destruct (m !! key) as [text|] eqn:E.
  - split; [intros _; left; by eexists|]. intros _.
    apply JSTheory.truthy_nonempty. by intros ->.
  - destruct (inherited key); simpl.
    + split; [by right|done].
    + split; [done|]. by intros [[? ?]|?].
Qed.

(** When no version string is empty, the value returned is truthy exactly
    when the name is declared, or is the name of a member of
    [Object.prototype] and the project has one of the two mappings; a
    missing mapping counts as empty and has no members. *)
Lemma hasDependency_declared (dependency : IDependency)
    (projectData : IProjectData) :
  versions_nonempty projectData →
  truthy (hasDependency dependency projectData) = true
  ↔ declared (packageName dependency) projectData
    ∨ (inherited (packageName dependency) = true
       ∧ (is_Some (dependencies projectData)
          ∨ is_Some (devDependencies projectData))).
Proof.
  intros Hne. unfold hasDependency, declared. rewrite truthy_or, orb_true_iff.
  assert (Hkey : ∀ m, (dependencies projectData = Some m
                       ∨ devDependencies projectData = Some m) →
                      truthy (index m (packageName dependency)) = true
                      ↔ is_Some (m !! packageName dependency)
                        ∨ inherited (packageName dependency) = true).
  { intros m Hm. apply index_truthy. by apply Hne. }
  destruct (dependencies projectData) as [m1|],
           (devDependencies projectData) as [m2|]; simpl;
    rewrite ?Hkey by auto; split.
  - intros [[H| ->]|[H| ->]]; eauto 8.
  - intros [[(m & [= <-] & H)|(m & [= <-] & H)]|[-> _]]; auto.
  - intros [[H| ->]|H]; [eauto 8..|done].
  - intros [[(m & [= <-] & H)|(m & [=] & _)]|[-> _]]; auto.
  - intros [H|[H| ->]]; [done|eauto 8..].
  - intros [[(m & [=] & _)|(m & [= <-] & H)]|[-> _]]; auto.
  - by intros [H|H].
  - intros [[(m & [=] & _)|(m & [=] & _)]|[_ [[? [=]]|[? [=]]]]].
Qed.

Lemma hasDependency_declared_witness :
  truthy (hasDependency core_modules dev_only_project) = true
  ↔ declared "tns-core-modules" dev_only_project
    ∨ (inherited "tns-core-modules" = true
       ∧ (is_Some (dependencies dev_only_project)
          ∨ is_Some (devDependencies dev_only_project))).
Proof.
  apply (hasDependency_declared core_modules dev_only_project).
  intros m name [H|H]; simpl in H; [discriminate|].
  injection H as <-. intros Hname.
  apply lookup_singleton_Some in Hname as [_ Hname]. discriminate.
Defined.

(** A name that every object inherits is found in a project that
    declares nothing. *)
Example inherited_name_is_found :
  hasDependency {| packageName := "constructor" |} empty_project
  = Some (Inherited "constructor")
  ∧ ¬ declared "constructor" empty_project.
Proof.
  split; [by vm_compute|].
  intros [(m & [= <-] & [v H])|(m & [= <-] & [v H])]; by rewrite lookup_empty in H.
Qed.

(** C6. The name is a key of [dependencies], yet the function returns
    [undefined]: the version string under the key is empty, hence falsy,
    and the value returned is the falsy right operand, not a boolean. *)
Theorem hasDependency_misses_empty_version :
  declared (packageName core_modules) any_version_project
  ∧ hasDependency core_modules any_version_project = None
  ∧ truthy (hasDependency core_modules any_version_project) = false.
Proof.
  split; [|by vm_compute].
  left. eexists. split; [reflexivity|].
  unfold core_modules. simpl. rewrite lookup_singleton_eq. by eexists.
Qed.

End DependencyQueryTheory.

Module ResolverTheory.
Import Resolver.

Section Facts.

Context {semver : Semver}.

(** ** Journals *)

Lemma issued_nothing (w : world) : issued w w = [].
Proof. unfold issued. by rewrite drop_all. Qed.

Lemma issued_record_call (c : call) (w : world) :
  issued w (record_call c w) = [c].
Proof. unfold issued, record_call. simpl. by rewrite drop_app_length. Qed.

Lemma issued_calls (w w' : world) (new : list call) :
  calls w' = calls w ++ new → issued w w' = new.
Proof. unfold issued. intros ->. by rewrite drop_app_length. Qed.

(** ** Resolution of a maximum version *)

(** C2. [getMaxDependencyVersion] answers by the kind of the specifier:
    an exact version is returned as it is and the registry is not called;
    a range costs one [maxSatisfyingVersion] call whose answer is
    returned; anything else costs one [getTagVersion] call whose answer is
    returned.  The kinds are tested in this order, exclude one another and
    leave no specifier out. *)
Theorem resolveMaxVersion_policy (n s : string) (w : world) :
  (getMaxDependencyVersion n s w).1
  = match classify s with
    | Exact => Ok (Some s)
    | Range => awaited (max_satisfying (registry w) n s)
    | Tag => awaited (tag_version (registry w) n s)
    end
  ∧ issued w (getMaxDependencyVersion n s w).2
    = match classify s with
      | Exact => []
      | Range => [CallMaxSatisfyingVersion n s]
      | Tag => [CallGetTagVersion n s]
      end
  ∧ (classify s = Exact ↔ JS.truthy (valid s) = true)
  ∧ (classify s = Range
     ↔ JS.truthy (valid s) = false ∧ JS.truthy (validRange s) = true)
  ∧ (classify s = Tag
     ↔ JS.truthy (valid s) = false ∧ JS.truthy (validRange s) = false).
Proof.
  unfold getMaxDependencyVersion, classify.
  destruct (JS.truthy (valid s)); [|destruct (JS.truthy (validRange s))];
    simpl; rewrite ?issued_nothing, ?issued_record_call;
    repeat split; try done; try (by intros []).
Qed.

(** ** The function behind the memoized one *)

Lemma underlying_unfold (n s : string) (w : world) :
  _getPackageManifest n s w
  = match packageVersionOf n s w with
    | (Ok pv, w1) =>
        if usable pv
        then pacoteManifest (n +:+ "@" +:+ default "" pv) true w1
        else (Err (Thrown (failure_message n s)), w1)
    | (Err e, w1) => (Err e, w1)
    end.
Proof.
  unfold _getPackageManifest, mbind, M_bind, bind.
  destruct (packageVersionOf n s w) as [[pv|e] w1]; [|done].
  by destruct (usable pv).
Qed.

Lemma packageVersionOf_unfold (n s : string) (w : world) :
  packageVersionOf n s w
  = if JS.truthy (valid s) then (Ok (valid s), w)
    else (awaited (tag_version (registry w) n s),
          record_call (CallGetTagVersion n s) w).
Proof. unfold packageVersionOf. by destruct (JS.truthy (valid s)). Qed.

(** The function behind changes neither the registry nor the cache, adds
    at most a tag lookup followed by at most one fetch, and never looks a
    range up. *)
Lemma underlying_frame (n s : string) (w : world) :
  registry (_getPackageManifest n s w).2 = registry w
  ∧ cache (_getPackageManifest n s w).2 = cache w
  ∧ ∃ new, calls (_getPackageManifest n s w).2 = calls w ++ new
           ∧ (length (filter (λ c, is_fetch c = true) new) ≤ 1)%nat
           ∧ Forall (λ c, is_range_lookup c = false) new.
Proof.
  rewrite underlying_unfold, packageVersionOf_unfold.
  destruct (JS.truthy (valid s)).
  - destruct (usable (valid s)); simpl.
    + repeat split; try done. eexists [_]. repeat split; try done.
      by repeat constructor.
    + repeat split; try done. exists []. rewrite app_nil_r.
      repeat split; try done. simpl. lia.
  - destruct (tag_version (registry w) n s) as [pv|reason]; simpl.
    + destruct (usable pv); simpl.
      * repeat split; try done. eexists [_; _]. rewrite <- app_assoc.
        repeat split; try done. by repeat constructor.
      * repeat split; try done. eexists [_].
        repeat split; try done; [simpl; lia|]. by repeat constructor.
    + repeat split; try done. eexists [_].
      repeat split; try done; [simpl; lia|]. by repeat constructor.
Qed.

(** What it settles to depends on the registry only. *)
Lemma underlying_result (n s : string) (w w' : world) :
  registry w = registry w' →
  (_getPackageManifest n s w).1 = (_getPackageManifest n s w').1.
Proof.
  intros Hreg. rewrite !underlying_unfold, !packageVersionOf_unfold.
  destruct (JS.truthy (valid s)).
  - destruct (usable (valid s)); simpl; [|done]. by rewrite Hreg.
  - rewrite <- Hreg.
    destruct (tag_version (registry w) n s) as [pv|reason]; simpl; [|done].
    destruct (usable pv); simpl; [|done]. by rewrite Hreg.
Qed.

(** ** The memoized function *)

Lemma memoized_hit (n s : string) (w : world) (settled : result error manifest) :
  cache w !! join "@" [n; s] = Some settled →
  getPackageManifest n s w = (settled, w).
Proof. unfold getPackageManifest, memoize. by intros ->. Qed.

Lemma memoized_miss (n s : string) (w : world) :
  cache w !! join "@" [n; s] = None →
  getPackageManifest n s w
  = ((_getPackageManifest n s w).1,
     World (registry w) (calls (_getPackageManifest n s w).2)
           (<[join "@" [n; s] := (_getPackageManifest n s w).1]> (cache w))).
Proof.
  unfold getPackageManifest, memoize. intros ->.
  destruct (underlying_frame n s w) as (Hreg & Hcache & _).
  destruct (_getPackageManifest n s w) as [r w']. simpl in *.
  by rewrite Hreg, Hcache.
Qed.

(** After a call its key is in the cache with what the call returned. *)
Lemma memoized_cached (n s : string) (w : world) :
  cache (getPackageManifest n s w).2 !! join "@" [n; s]
  = Some (getPackageManifest n s w).1.
Proof.
  destruct (cache w !! join "@" [n; s]) as [r|] eqn:E.
  - by rewrite (memoized_hit _ _ _ _ E).
  - rewrite (memoized_miss _ _ _ E). simpl. by rewrite lookup_insert_eq.
Qed.

(** No entry of the cache is ever removed or replaced. *)
Lemma memoized_keeps (n s : string) (w : world) (k : string)
    (r : result error manifest) :
  cache w !! k = Some r → cache (getPackageManifest n s w).2 !! k = Some r.
Proof.
  intros Hk. destruct (cache w !! join "@" [n; s]) as [r'|] eqn:E.
  - by rewrite (memoized_hit _ _ _ _ E).
  - rewrite (memoized_miss _ _ _ E). simpl.
    rewrite lookup_insert_ne; [done|]. intros <-. simpl in E. congruence.
Qed.

Lemma step_keeps (w : world) (e : event) (k : string) (r : result error manifest) :
  cache w !! k = Some r → cache (step w e) !! k = Some r.
Proof. destruct e; simpl; [apply memoized_keeps|done]. Qed.

Lemma run_keeps (es : list event) (w : world) (k : string)
    (r : result error manifest) :
  cache w !! k = Some r → cache (run es w) !! k = Some r.
Proof.
  unfold run. revert w. induction es as [|e es IH]; intros w Hk; simpl; [done|].
  apply IH. by apply step_keeps.
Qed.

(** C3. Whatever a call of [getPackageManifest] returns, manifest or
    failure, every later call with the same name and specifier returns the
    same and changes nothing, so calls the registry no more, whatever
    calls were made and however the registry changed in between; and the
    first call itself fetched at most once. *)
Theorem manifest_memoized (n s : string) (w : world) (es : list event) :
  getPackageManifest n s (run es (getPackageManifest n s w).2)
  = ((getPackageManifest n s w).1, run es (getPackageManifest n s w).2)
  ∧ (length (filter (λ c, is_fetch c = true)
               (issued w (getPackageManifest n s w).2)) ≤ 1)%nat.
Proof.
  split.
  - apply memoized_hit, run_keeps, memoized_cached.
  - destruct (cache w !! join "@" [n; s]) as [r|] eqn:E.
    + rewrite (memoized_hit _ _ _ _ E). simpl. rewrite issued_nothing. simpl. lia.
    + rewrite (memoized_miss _ _ _ E).
      destruct (underlying_frame n s w) as (_ & _ & new & Hnew & Hfetch & _).
      by rewrite (issued_calls _ _ new).
Qed.

Lemma memoized_registry (n s : string) (w : world) :
  registry (getPackageManifest n s w).2 = registry w.
Proof.
  destruct (cache w !! join "@" [n; s]) as [r|] eqn:E.
  - by rewrite (memoized_hit _ _ _ _ E).
  - by rewrite (memoized_miss _ _ _ E).
Qed.

Lemma memoized_other (n s : string) (w : world) (k : string) :
  k ≠ join "@" [n; s] →
  cache (getPackageManifest n s w).2 !! k = cache w !! k.
Proof.
  intros Hk. destruct (cache w !! join "@" [n; s]) as [r|] eqn:E.
  - by rewrite (memoized_hit _ _ _ _ E).
  - rewrite (memoized_miss _ _ _ E). simpl. by rewrite lookup_insert_ne.
Qed.

(** Two calls whose keys differ do not see each other. *)
Lemma independent_keys (n1 s1 n2 s2 : string) :
  join "@" [n1; s1] ≠ join "@" [n2; s2] → independent n1 s1 n2 s2.
Proof.
  intros Hkeys w.
  pose proof (memoized_other n1 s1 w (join "@" [n2; s2])) as Hother.
  pose proof (memoized_registry n1 s1 w) as Hreg.
  destruct (cache w !! join "@" [n2; s2]) as [r|] eqn:E.
  - rewrite (memoized_hit n2 s2 w r E).
    rewrite (memoized_hit n2 s2 _ r); [done|]. rewrite Hother; [done|]. congruence.
  - rewrite (memoized_miss n2 s2 w E).
    rewrite (memoized_miss n2 s2 (getPackageManifest n1 s1 w).2).
    + simpl. by apply underlying_result.
    + rewrite Hother; [done|]. congruence.
Qed.

(** ** Resolution by tag *)

(** Whatever the specifier and the cache, no range is ever looked up. *)
Lemma memoized_never_satisfies_range (n s : string) (w : world) :
  Forall (λ c, is_range_lookup c = false)
    (issued w (getPackageManifest n s w).2).
Proof.
  destruct (cache w !! join "@" [n; s]) as [r|] eqn:E.
  - rewrite (memoized_hit _ _ _ _ E). simpl. by rewrite issued_nothing.
  - rewrite (memoized_miss _ _ _ E).
    destruct (underlying_frame n s w) as (_ & _ & new & Hnew & _ & Hrange).
    by rewrite (issued_calls _ _ new).
Qed.

(** C4. On the first call for a key whose specifier is no exact version,
    range or not, the registry is never asked for a range and is asked
    for the tag first; what follows is decided by the answer alone.  When
    the tag is bound to a text that is not empty and is a valid version,
    the manifest of [name@version] is fetched with [fullMetadata: true]
    and returned, and nothing else is asked.  When it is bound to
    anything else or to nothing, the call fails with its own error after
    the tag lookup; when the lookup is rejected, so is the call. *)
Theorem manifest_resolves_by_tag_only (n s : string) (w : world) :
  JS.truthy (valid s) = false →
  cache w !! join "@" [n; s] = None →
  Forall (λ c, is_range_lookup c = false) (issued w (getPackageManifest n s w).2)
  ∧ (∃ rest, issued w (getPackageManifest n s w).2 = CallGetTagVersion n s :: rest)
  ∧ match tag_version (registry w) n s with
    | Ok (Some v) =>
        if negb (String.eqb v "") && JS.truthy (valid v)
        then (getPackageManifest n s w).1
             = awaited (pacote_manifest (registry w) (n +:+ "@" +:+ v) true)
             ∧ issued w (getPackageManifest n s w).2
               = [CallGetTagVersion n s; CallManifest (n +:+ "@" +:+ v) true]
        else (getPackageManifest n s w).1 = Err (Thrown (failure_message n s))
             ∧ issued w (getPackageManifest n s w).2 = [CallGetTagVersion n s]
    | Ok None =>
        (getPackageManifest n s w).1 = Err (Thrown (failure_message n s))
        ∧ issued w (getPackageManifest n s w).2 = [CallGetTagVersion n s]
    | Err reason =>
        (getPackageManifest n s w).1 = Err (RegistryError reason)
        ∧ issued w (getPackageManifest n s w).2 = [CallGetTagVersion n s]
    end.
Proof.
  intros Hexact Hmiss. split; [apply memoized_never_satisfies_range|].
  rewrite (memoized_miss _ _ _ Hmiss). simpl.
  rewrite underlying_unfold, packageVersionOf_unfold, Hexact.
  destruct (tag_version (registry w) n s) as [[v|]|reason]; simpl.
  - destruct (negb (String.eqb v "") && JS.truthy (valid v)); simpl.
    + split; [eexists [_]|split; [done|]];
        apply issued_calls; simpl; by rewrite <- app_assoc.
    + split; [exists []|split; [done|]]; by apply issued_calls.
  - split; [exists []|split; [done|]]; by apply issued_calls.
  - split; [exists []|split; [done|]]; by apply issued_calls.
Qed.

(** ** The failure of a resolution *)

Lemma usable_false (pv : option string) :
  usable pv = false
  ↔ JS.truthy pv = false ∨ ∃ v, pv = Some v ∧ JS.truthy (valid v) = false.
Proof.
  destruct pv as [v|]; simpl.
  - rewrite andb_false_iff. split.
    + intros [H|H]; [by left|]. right. by exists v.
    + intros [H|(v' & [= <-] & H)]; auto.
  - split; [by left|done].
Qed.

Lemma awaited_not_thrown {A} (answer : result string A) (msg : string) :
  awaited answer ≠ Err (Thrown msg).
Proof. by destruct answer. Qed.

Lemma prefix_append (a b : string) : String.prefix a (a +:+ b) = true.
Proof.
  induction a as [|c a IH]; simpl.
  - by destruct b.
  - by destruct (ascii_dec c c).
Qed.

Lemma includes_unfold (a h : string) :
  includes a h
  = String.prefix a h
    || match h with
       | EmptyString => false
       | String _ rest => includes a rest
       end.
Proof. by destruct h. Qed.

Lemma prefix_refl (a : string) : String.prefix a a = true.
Proof. induction a as [|c a IH]; simpl; [done|]. by destruct (ascii_dec c c). Qed.

Lemma includes_append_r (a x y : string) :
  includes a y = true → includes a (x +:+ y) = true.
Proof.
  intros Hy. induction x as [|c x IH]; [done|].
  change (String c x +:+ y) with (String c (x +:+ y)).
  rewrite includes_unfold. cbv beta iota. rewrite IH. apply orb_true_r.
Qed.

Lemma failure_message_cites (n s : string) :
  includes n (failure_message n s) = true
  ∧ includes s (failure_message n s) = true.
Proof.
  unfold failure_message. split.
  - apply includes_append_r. by rewrite includes_unfold, prefix_append.
  - do 3 apply includes_append_r. by rewrite includes_unfold, prefix_refl.
Qed.

(** C5, amended. On the first call for a key, [getPackageManifest] fails
    with an error of its own exactly when the version the specifier
    resolved to is missing, empty or no valid version; the message of that
    error is [Failed to get information for package: name@specifier], so
    it has the package name and the specifier in it. *)
Theorem manifest_resolution_error (n s : string) (w : world) :
  cache w !! join "@" [n; s] = None →
  ((∃ msg, (getPackageManifest n s w).1 = Err (Thrown msg))
   ↔ ∃ pv, (packageVersionOf n s w).1 = Ok pv
           ∧ (JS.truthy pv = false
              ∨ ∃ v, pv = Some v ∧ JS.truthy (valid v) = false))
  ∧ (∀ msg, (getPackageManifest n s w).1 = Err (Thrown msg) →
       msg = failure_message n s
       ∧ includes n msg = true ∧ includes s msg = true).
Proof.
  intros Hmiss. rewrite (memoized_miss _ _ _ Hmiss). simpl.
  rewrite underlying_unfold.
  assert (Hpv : ∀ e, (packageVersionOf n s w).1 = Err e →
                     ∀ msg, e ≠ Thrown msg).
  { intros e. rewrite packageVersionOf_unfold.
    destruct (JS.truthy (valid s)); simpl; [discriminate|].
    intros H msg ->. by apply awaited_not_thrown in H. }
  destruct (packageVersionOf n s w) as [[pv|e] w1]; simpl in *.
  - destruct (usable pv) eqn:Eu; simpl.
    + split.
      * split.
        -- intros [msg H]. by apply awaited_not_thrown in H.
        -- intros (pv' & [= <-] & H). apply usable_false in H. congruence.
      * intros msg H. by apply awaited_not_thrown in H.
    + split.
      * split; [|by eauto]. intros _. exists pv. split; [done|].
        by apply usable_false.
      * intros msg [= <-]. split; [done|]. apply failure_message_cites.
  - split.
    + split.
      * intros [msg [= ->]]. by destruct (Hpv _ eq_refl msg).
      * by intros (pv & H & _).
    + intros msg [= ->]. by destruct (Hpv _ eq_refl msg).
Qed.

(** ** The key of the cache *)

Lemma at_splits (a b s1 s2 : string) :
  no_at a = true → no_at b = true →
  a +:+ String "@" s1 = b +:+ String "@" s2 → a = b ∧ s1 = s2.
Proof.
  revert b. induction a as [|c a IH]; intros [|d b]; simpl; intros Ha Hb H.
  - by injection H as ->.
  - injection H as <- _. by rewrite Ascii.eqb_refl in Hb.
  - injection H as -> _. by rewrite Ascii.eqb_refl in Ha.
  - injection H as -> H.
    apply andb_true_iff in Ha as [_ Ha]. apply andb_true_iff in Hb as [_ Hb].
    destruct (IH b Ha Hb H) as [-> ->]. done.
Qed.

(** For package names the joined key tells the pair. *)
Lemma joined_key_injective (n1 s1 n2 s2 : string) :
  package_name n1 = true → package_name n2 = true →
  join "@" [n1; s1] = join "@" [n2; s2] → n1 = n2 ∧ s1 = s2.
Proof.
  destruct n1 as [|c1 n1]; [discriminate|]. destruct n2 as [|c2 n2]; [discriminate|].
  simpl. intros H1 H2 [= -> H].
  destruct (at_splits n1 n2 s1 s2 H1 H2 H) as [-> ->]. done.
Qed.

(** C8, amended. Two calls whose pairs differ, made with package names
    (not empty, no [@] except in front), resolve independently: the second
    gets what it would have got had the first not been made. *)
Theorem manifest_keyed_by_joined_text (n1 s1 n2 s2 : string) :
  package_name n1 = true → package_name n2 = true →
  (n1, s1) ≠ (n2, s2) → independent n1 s1 n2 s2.
Proof.
  intros H1 H2 Hne. apply independent_keys. intros Hkey.
  destruct (joined_key_injective _ _ _ _ H1 H2 Hkey) as [-> ->]. done.
Qed.

End Facts.

(** ** On the example registry *)

Import Sample.

Lemma manifest_resolves_by_tag_only_witness :
  Forall (λ c, is_range_lookup c = false)
    (issued fresh (getPackageManifest "pkg" "latest" fresh).2)
  ∧ (∃ rest, issued fresh (getPackageManifest "pkg" "latest" fresh).2
             = CallGetTagVersion "pkg" "latest" :: rest)
  ∧ (getPackageManifest "pkg" "latest" fresh).1
    = awaited (pacote_manifest (registry fresh) "pkg@3.2.0" true)
  ∧ issued fresh (getPackageManifest "pkg" "latest" fresh).2
    = [CallGetTagVersion "pkg" "latest"; CallManifest "pkg@3.2.0" true].
Proof.
  exact (manifest_resolves_by_tag_only "pkg" "latest" fresh eq_refl eq_refl).
Defined.

(** The three kinds on the sample registry. *)
Example exact_is_returned_unchanged :
  (getMaxDependencyVersion "tns-android" "6.0.0" fresh).1 = Ok (Some "6.0.0")
  ∧ calls (getMaxDependencyVersion "tns-android" "6.0.0" fresh).2 = [].
Proof. by vm_compute. Qed.

Example range_is_satisfied :
  (getMaxDependencyVersion "tns-android" "6.x" fresh).1 = Ok (Some "6.5.0")
  ∧ calls (getMaxDependencyVersion "tns-android" "6.x" fresh).2
    = [CallMaxSatisfyingVersion "tns-android" "6.x"].
Proof. by vm_compute. Qed.

Example tag_is_looked_up :
  (getMaxDependencyVersion "tns-android" "latest" fresh).1 = Ok (Some "3.2.0")
  ∧ calls (getMaxDependencyVersion "tns-android" "latest" fresh).2
    = [CallGetTagVersion "tns-android" "latest"].
Proof. by vm_compute. Qed.

(** A valid range is looked up as a tag, found unbound, and the call fails. *)
Example range_is_taken_for_a_tag :
  validRange "^1.0.0" = Some "^1.0.0"
  ∧ calls (getPackageManifest "pkg" "^1.0.0" fresh).2
    = [CallGetTagVersion "pkg" "^1.0.0"]
  ∧ (getPackageManifest "pkg" "^1.0.0" fresh).1
    = Err (Thrown "Failed to get information for package: pkg@^1.0.0").
Proof. by vm_compute. Qed.

Example tag_is_fetched_with_full_metadata :
  calls (getPackageManifest "pkg" "latest" fresh).2
  = [CallGetTagVersion "pkg" "latest"; CallManifest "pkg@3.2.0" true]
  ∧ (getPackageManifest "pkg" "latest" fresh).1 = Ok "full:pkg@3.2.0".
Proof. by vm_compute. Qed.

(** The registry moves [latest]; the cached manifest is still returned and
    the registry is not called. *)
Example stale_after_registry_change :
  let w := set_registry npm_later (getPackageManifest "pkg" "latest" fresh).2 in
  (getPackageManifest "pkg" "latest" w).1 = Ok "full:pkg@3.2.0"
  ∧ issued w (getPackageManifest "pkg" "latest" w).2 = []
  ∧ tag_version (registry w) "pkg" "latest" = Ok (Some "4.0.0").
Proof. by vm_compute. Qed.

(** C5, as stated, fails: the tag [next] resolves to [garbage], the call
    fails, and the message does not have the resolved value in it. *)
Lemma resolution_error_omits_resolved :
  (packageVersionOf "pkg" "next" fresh).1 = Ok (Some "garbage")
  ∧ (getPackageManifest "pkg" "next" fresh).1
    = Err (Thrown "Failed to get information for package: pkg@next")
  ∧ ¬ cites_all "pkg" "next" "garbage"
        "Failed to get information for package: pkg@next".
Proof.
  split; [reflexivity|]. split; [reflexivity|].
  intros (_ & _ & H). by vm_compute in H.
Qed.

Lemma manifest_resolution_error_witness :
  ((∃ msg, (getPackageManifest "pkg" "next" fresh).1 = Err (Thrown msg))
   ↔ ∃ pv, (packageVersionOf "pkg" "next" fresh).1 = Ok pv
           ∧ (JS.truthy pv = false
              ∨ ∃ v, pv = Some v ∧ JS.truthy (valid v) = false))
  ∧ (∀ msg, (getPackageManifest "pkg" "next" fresh).1 = Err (Thrown msg) →
       msg = failure_message "pkg" "next"
       ∧ includes "pkg" msg = true ∧ includes "next" msg = true).
Proof.
  apply (manifest_resolution_error "pkg" "next" fresh). reflexivity.
Defined.

(** C8, as stated, fails: the pairs [("a", "b@c")] and [("a@b", "c")]
    differ and share the key [a@b@c], so the second call gets the manifest
    of the first. *)
Lemma joined_keys_collide :
  ("a", "b@c") ≠ ("a@b", "c")
  ∧ (getPackageManifest "a@b" "c" (getPackageManifest "a" "b@c" fresh).2).1
    = Ok "full:a@1.0.0"
  ∧ (getPackageManifest "a@b" "c" fresh).1 = Ok "full:a@b@2.0.0"
  ∧ ¬ independent "a" "b@c" "a@b" "c".
Proof.
  split; [discriminate|]. split; [by vm_compute|]. split; [by vm_compute|].
  intros H. specialize (H fresh). by vm_compute in H.
Qed.

Lemma manifest_keyed_by_joined_text_witness :
  independent "pkg" "latest" "@scope/pkg" "latest".
Proof.
  apply (manifest_keyed_by_joined_text "pkg" "latest" "@scope/pkg" "latest");
    [reflexivity|reflexivity|discriminate].
Defined.

End ResolverTheory.

(** * Further properties of the snapshot protocol *)

Module SnapshotLaws.
Import Snapshot SnapshotTheory Snapshot.Scenario.

(** ** What a backup leaves alone *)

(** Outside the backup root a backup, failed or not, changes nothing but
    for the missing parents of the backup root, which it may create. *)
Theorem backup_frame (fault : nat → bool) (F : list string) (B P : path)
    (w : world) (k : path) :
  ¬ B `prefix_of` k →
  tree (backup fault F B P w).2 !! k = tree w !! k
  ∨ (tree w !! k = None ∧ k `prefix_of` B
     ∧ tree (backup fault F B P w).2 !! k = Some EDir).
Proof.
  intros Hk.
  destruct (fault (length (journal w))) eqn:Hfault.
  { left. unfold backup, deleteDirectory, mbind, M_bind, bind, attempt.
    simpl. by rewrite Hfault. }
  apply (backup_invariant fault
    (λ t, t !! k = tree w !! k
          ∨ (tree w !! k = None ∧ k `prefix_of` B ∧ t !! k = Some EDir)));
    [done| | |].
  - left. by rewrite lookup_tree_delete, decide_False.
  - intros t [Ht|(Hnone & Hpre & Ht)]; rewrite lookup_tree_mkdir, Ht.
    + destruct (tree w !! k) eqn:E; [by left|].
      destruct (decide (k `prefix_of` B)); [by right|by left].
    + by right.
  - intros f t Hf Ht. rewrite lookup_copy_outside; [done|].
    intros Hp. apply Hk. etrans; [|done].
    by exists [basename (path_join P f)].
Qed.

Lemma backup_frame_witness :
  tree failed.2 !! ["app"; "B"; "b.txt"] = with_old_backup !! ["app"; "B"; "b.txt"]
  ∨ (with_old_backup !! ["app"; "B"; "b.txt"] = None
     ∧ ["app"; "B"; "b.txt"] `prefix_of` backupDir
     ∧ tree failed.2 !! ["app"; "B"; "b.txt"] = Some EDir).
Proof.
  apply (backup_frame first_copy_fails folders backupDir projectDir
           (World with_old_backup []) ["app"; "B"; "b.txt"]).
  intros [r Hr]. discriminate.
Defined.

(** ** What a restore leaves alone *)

(** For folder names and separate roots, a restore, failed or not,
    changes nothing at or below the backup root: the backup can be
    restored again. *)
Theorem restore_keeps_backup (fault : nat → bool) (F : list string)
    (B P : path) (w : world) (k : path) :
  folder_names F → separate F B P → B `prefix_of` k →
  tree (restoreBackup fault F B P w).2 !! k = tree w !! k.
Proof.
  intros HF Hsep%separate_apart Hk; [|done].
  apply restoreBackup_outside; [done|].
  intros f Hf. by eapply apart_backup_side.
Qed.

Lemma restore_keeps_backup_witness :
  tree restored !! (backupDir ++ ["A"; "a.txt"])
  = tree mutated !! (backupDir ++ ["A"; "a.txt"]).
Proof.
  apply (restore_keeps_backup no_fault folders backupDir projectDir mutated).
  - exact folders_are_names.
  - exact separate_scenario.
  - by exists ["A"; "a.txt"].
Defined.

(** ** What a backup holds *)

Lemma tree_exists_true_iff (p : path) (t : fstree) :
  tree_exists p t = true ↔ is_Some (t !! p).
Proof. unfold tree_exists. apply bool_decide_eq_true. Qed.

Lemma backup_tree_root (F : list string) (B P : path) (t : fstree) :
  is_Some (backup_tree F B P t !! B).
Proof.
  unfold backup_tree. rewrite backup_fold_outside.
  - rewrite lookup_tree_mkdir. destruct (tree_delete B t !! B); [by eexists|].
    rewrite decide_True by done. by eexists.
  - intros f _ H%prefix_length. unfold child in H.
    rewrite length_app in H. simpl in H. lia.
Qed.

(** After a backup of folder names that returned, the roots being
    separate, the backup root exists and has, of all entries, exactly
    those of the listed names that the project had; and what it has of a
    listed folder of a well formed tree is what the project has. *)
Theorem backup_holds_listed_present (fault : nat → bool) (F : list string)
    (B P : path) (w w' : world) :
  folder_names F → separate F B P →
  backup fault F B P w = (Ok tt, w') →
  tree_exists B (tree w') = true
  ∧ (∀ n, tree_exists (child B n) (tree w')
          = bool_decide (n ∈ F) && tree_exists (child P n) (tree w))
  ∧ (wf (tree w) → ∀ f r, f ∈ F →
       tree w' !! (path_join B f ++ r) = tree w !! (path_join P f ++ r)).
Proof.
  intros HF Hsep%separate_apart Hb; [|done].
  apply backup_Ok in Hb; [|done]. rewrite Hb. split; [|split].
  - apply tree_exists_true_iff, backup_tree_root.
  - intros n. destruct (decide (n ∈ F)) as [Hn|Hn].
    + rewrite bool_decide_eq_true_2 by done. simpl. apply tree_exists_ext.
      pose proof (backup_tree_listed F B P (tree w) n [] Hsep Hn) as H.
      rewrite !app_nil_r in H. by apply H.
    + rewrite bool_decide_eq_false_2 by done. simpl.
      apply tree_exists_false.
      pose proof (backup_tree_unlisted F B P (tree w) n [] Hn) as H.
      by rewrite <- join_assoc, app_nil_r in H.
  - intros Hwf f r Hf.
    rewrite !(path_join_name _ _ (folder_names_elem _ _ HF Hf)).
    apply backup_tree_listed; [done..|]. apply Hwf.
Qed.

Lemma backup_holds_listed_present_witness :
  tree_exists backupDir (tree backed_up) = true
  ∧ (∀ n, tree_exists (child backupDir n) (tree backed_up)
          = bool_decide (n ∈ folders)
            && tree_exists (child projectDir n) at_backup)
  ∧ (wf at_backup → ∀ f r, f ∈ folders →
       tree backed_up !! (path_join backupDir f ++ r)
       = at_backup !! (path_join projectDir f ++ r)).
Proof.
  apply (backup_holds_listed_present no_fault folders backupDir projectDir
           (World at_backup []) backed_up).
  - exact folders_are_names.
  - exact separate_scenario.
  - by vm_compute.
Defined.

(** An entry of the list that is a path of two components is not kept
    under that path: the copy is placed under its last component. *)
Example backup_of_a_longer_path :
  let after :=
    (backup no_fault ["A/a.txt"] backupDir projectDir (World at_backup [])).2 in
  tree after !! (backupDir ++ ["a.txt"]) = Some (EFile "x")
  ∧ tree after !! (backupDir ++ ["A"; "a.txt"]) = None.
Proof. by vm_compute. Qed.

(** ** Doing it again *)

(** The steps of the loop write below the backup root only, whatever
    the list holds. *)
Lemma backup_steps_outside (F : list string) (B P : path) (t : fstree) (k : path) :
  ¬ B `prefix_of` k → foldl (backup_step B P) t F !! k = t !! k.
Proof.
  intros Hk. apply (foldl_invariant (λ t', t' !! k = t !! k)); [|done].
  intros t' f _ <-. unfold backup_step. cbv zeta.
  destruct (tree_exists _ _); [|done].
  apply lookup_copy_outside. intros Hp. apply Hk. etrans; [|done].
  by exists [basename (path_join P f)].
Qed.

Lemma backup_steps_again (F : list string) (B P : path) (t : fstree) :
  tree_mkdir B (tree_delete B
    (foldl (backup_step B P) (tree_mkdir B (tree_delete B t)) F))
  = tree_mkdir B (tree_delete B t).
Proof.
  apply map_eq. intros k.
  rewrite !lookup_tree_mkdir, !lookup_tree_delete.
  destruct (decide (B `prefix_of` k)) as [Hk|Hk]; [done|].
  rewrite backup_steps_outside by done.
  rewrite lookup_tree_mkdir, lookup_tree_delete, decide_False by done.
  destruct (t !! k); [done|]. by destruct (decide (k `prefix_of` B)).
Qed.

(** A backup made right after a backup leaves the tree as the first one
    left it, wherever the two roots are. *)
Theorem backup_twice (fault1 fault2 : nat → bool) (F : list string)
    (B P : path) (w w1 w2 : world) :
  backup fault1 F B P w = (Ok tt, w1) →
  backup fault2 F B P w1 = (Ok tt, w2) →
  tree w2 = tree w1.
Proof.
  intros H1 H2. apply backup_steps in H1. apply backup_steps in H2.
  by rewrite H2, H1, backup_steps_again.
Qed.

Lemma backup_twice_witness :
  tree (backup no_fault folders backupDir projectDir backed_up).2 = tree backed_up.
Proof.
  apply (backup_twice no_fault no_fault folders backupDir projectDir
           (World at_backup []) backed_up
           (backup no_fault folders backupDir projectDir backed_up).2);
    by vm_compute.
Defined.

(** What a restore puts at a listed folder: the backup of it, or nothing
    when there is none. *)
Lemma restore_folder_slot (F : list string) (B P : path) (g : string)
    (r : path) (t : fstree) :
  apart F B P → g ∈ F →
  restore_folder B P t g !! (child P g ++ r)
  = if tree_exists (child B g) t then t !! (child B g ++ r) else None.
Proof.
  intros Hsep Hg. unfold restore_folder.
  assert (Hside : ∀ r', tree_delete (child P g) t !! (child B g ++ r')
                        = t !! (child B g ++ r')).
  { intros r'. rewrite lookup_tree_delete, decide_False; [done|].
    eapply apart_backup_side; [done..|].
    unfold child. rewrite <- app_assoc. by apply prefix_app_r. }
  assert (Hgone : tree_delete (child P g) t !! (child P g ++ r) = None).
  { rewrite lookup_tree_delete, decide_True; [done|]. by apply prefix_app_r. }
  assert (Hex : tree_exists (child B g) (tree_delete (child P g) t)
                = tree_exists (child B g) t).
  { apply tree_exists_ext. pose proof (Hside []) as H0.
    by rewrite app_nil_r in H0. }
  rewrite Hex. destruct (tree_exists (child B g) t).
  - rewrite lookup_tree_copy, basename_child, relative_app, Hside, Hgone.
    by destruct (t !! (child B g ++ r)).
  - done.
Qed.

Lemma restore_tree_slot (F : list string) (B P : path) (t : fstree)
    (f : string) (r : path) :
  apart F B P → f ∈ F →
  restore_tree F B P t !! (child P f ++ r)
  = if tree_exists (child B f) t then t !! (child B f ++ r) else None.
Proof.
  induction F as [|g F IH] using rev_ind; intros Hsep Hf.
  { by apply elem_of_nil in Hf. }
  rewrite restore_tree_snoc.
  destruct (apart_app _ _ _ _ Hsep) as [HsepF Hsepg].
  destruct (decide (f = g)) as [->|Hne].
  - rewrite (restore_folder_slot [g]); [|done|by left].
    rewrite (tree_exists_ext (child B g) (child B g)
               (restore_tree F B P t) t).
    + rewrite restore_tree_backup_side; [done..|].
      unfold child. rewrite <- app_assoc. by apply prefix_app_r.
    + apply restore_tree_backup_side; [done|]. by exists [g].
  - rewrite restore_folder_other by done.
    apply IH; [done|].
    apply elem_of_app in Hf as [Hf|Hf]; [done|].
    apply list_elem_of_singleton in Hf. contradiction.
Qed.

(** Every path is below a listed project folder or below none. *)
Lemma below_listed (F : list string) (P k : path) :
  (∃ f r, f ∈ F ∧ k = child P f ++ r)
  ∨ (∀ f, f ∈ F → ¬ child P f `prefix_of` k).
Proof.
  induction F as [|g F IH].
  { right. intros f Hf. by apply elem_of_nil in Hf. }
  destruct (decide (child P g `prefix_of` k)) as [[r ->]|Hg].
  { left. exists g, r. split; [by left|done]. }
  destruct IH as [(f & r & Hf & ->)|Hnone].
  - left. exists f, r. split; [by right|done].
  - right. intros f [->|Hf]%elem_of_cons; auto.
Qed.

Lemma restore_tree_again (F : list string) (B P : path) (t : fstree) :
  apart F B P →
  restore_tree F B P (restore_tree F B P t) = restore_tree F B P t.
Proof.
  intros Hsep. apply map_eq. intros k.
  destruct (below_listed F P k) as [(f & r & Hf & ->)|Hout].
  - rewrite !restore_tree_slot by done.
    rewrite (tree_exists_ext (child B f) (child B f)
               (restore_tree F B P t) t).
    + destruct (tree_exists (child B f) t); [|done].
      apply restore_tree_backup_side; [done|].
      unfold child. rewrite <- app_assoc. by apply prefix_app_r.
    + apply restore_tree_backup_side; [done|]. by exists [f].
  - by rewrite restore_tree_outside.
Qed.

(** For folder names and separate roots, a restore made right after a
    restore leaves the tree as the first one left it. *)
Theorem restore_twice (fault1 fault2 : nat → bool) (F : list string)
    (B P : path) (w w1 w2 : world) :
  folder_names F → separate F B P →
  restoreBackup fault1 F B P w = (Ok tt, w1) →
  restoreBackup fault2 F B P w1 = (Ok tt, w2) →
  tree w2 = tree w1.
Proof.
  intros HF Hsep%separate_apart H1 H2; [|done].
  apply restoreBackup_Ok in H1; [|done]. apply restoreBackup_Ok in H2; [|done].
  rewrite H2, H1. by apply restore_tree_again.
Qed.

Lemma restore_twice_witness :
  tree (restoreBackup no_fault folders backupDir projectDir restored).2
  = tree restored.
Proof.
  apply (restore_twice no_fault no_fault folders backupDir projectDir
           mutated restored
           (restoreBackup no_fault folders backupDir projectDir restored).2).
  - exact folders_are_names.
  - exact separate_scenario.
  - by vm_compute.
  - by vm_compute.
Defined.

(** Folder names are needed: with an entry that is a path of two
    components, the copy of [backupRoot/x/b] lands on the backup root
    itself, whose last component is [b] too, and every restore moves
    what the backup holds one level up, although the roots are
    separate. *)
Example restore_twice_of_a_longer_path :
  separate nested_folders nested_backupDir nested_projectDir
  ∧ tree nested_restored !! ["p"; "b"; "z"] = None
  ∧ tree (restoreBackup no_fault nested_folders nested_backupDir
            nested_projectDir nested_restored).2 !! ["p"; "b"; "z"]
    = Some (EFile "z").
Proof.
  split; [|by vm_compute]. split.
  - intros H%prefix_length. simpl in H. lia.
  - intros f ->%list_elem_of_singleton [r Hr]. discriminate.
Qed.

(** For folder names, the roots being separate and the tree well formed,
    a restore made right after a backup changes nothing at all. *)
Theorem restore_after_backup_changes_nothing (fault1 fault2 : nat → bool)
    (F : list string) (B P : path) (w w1 w2 : world) :
  folder_names F → separate F B P → wf (tree w) →
  backup fault1 F B P w = (Ok tt, w1) →
  restoreBackup fault2 F B P w1 = (Ok tt, w2) →
  tree w2 = tree w1.
Proof.
  intros HF Hsep%separate_apart Hwf H1 H2; [|done].
  apply backup_Ok in H1; [|done]. apply restoreBackup_Ok in H2; [|done].
  rewrite H2, H1. apply map_eq. intros k.
  destruct (below_listed F P k) as [(f & r & Hf & ->)|Hout].
  - rewrite restore_tree_listed; [|done..|].
    + rewrite backup_tree_listed; [|done..|apply Hwf].
      destruct (apart_project_side F B P f r Hsep Hf) as [HB HP].
      by rewrite backup_tree_project_side.
    + pose proof (backup_tree_listed F B P (tree w) f [] Hsep Hf) as H0.
      rewrite !app_nil_r in H0. rewrite H0 by done.
      rewrite backup_tree_listed; [|done..|apply Hwf]. apply Hwf.
  - by rewrite restore_tree_outside.
Qed.

Lemma restore_after_backup_changes_nothing_witness :
  tree (restoreBackup no_fault folders backupDir projectDir backed_up).2
  = tree backed_up.
Proof.
  apply (restore_after_backup_changes_nothing no_fault no_fault folders
           backupDir projectDir (World at_backup []) backed_up
           (restoreBackup no_fault folders backupDir projectDir backed_up).2).
  - exact folders_are_names.
  - exact separate_scenario.
  - exact at_backup_wf.
  - by vm_compute.
  - by vm_compute.
Defined.

End SnapshotLaws.

(** * Further properties of the resolution *)

Module ResolverLaws.
Import Resolver ResolverTheory.

Section Laws.

Context {semver : Semver}.

Lemma usable_truthy (v : string) :
  usable (Some v) = true → JS.truthy (Some v) = true ∧ JS.truthy (valid v) = true.
Proof. simpl. by intros H%andb_true_iff. Qed.

(** On the first call for a key whose specifier is an exact version, the
    registry is called once: the manifest of the name at the normalized
    version, which is what [semver.valid] returns and may differ from the
    text given, is fetched with [fullMetadata: true] and returned. *)
Theorem manifest_of_exact_version (n s v : string) (w : world) :
  valid s = Some v → usable (Some v) = true →
  cache w !! join "@" [n; s] = None →
  (getPackageManifest n s w).1
  = awaited (pacote_manifest (registry w) (n +:+ "@" +:+ v) true)
  ∧ issued w (getPackageManifest n s w).2 = [CallManifest (n +:+ "@" +:+ v) true].
Proof.
  intros Hv Hu Hmiss. destruct (usable_truthy v Hu) as [Ht _].
  rewrite (memoized_miss _ _ _ Hmiss). simpl.
  rewrite underlying_unfold, packageVersionOf_unfold, Hv, Ht, Hu. simpl.
  split; [done|]. by apply issued_calls.
Qed.

(** When the registry rejects the lookup of the tag, the rejection is what
    the call returns and nothing is fetched. *)
Theorem manifest_lookup_rejected (n s reason : string) (w : world) :
  JS.truthy (valid s) = false →
  tag_version (registry w) n s = Err reason →
  cache w !! join "@" [n; s] = None →
  (getPackageManifest n s w).1 = Err (RegistryError reason)
  ∧ issued w (getPackageManifest n s w).2 = [CallGetTagVersion n s].
Proof.
  intros Hexact Htag Hmiss. rewrite (memoized_miss _ _ _ Hmiss). simpl.
  rewrite underlying_unfold, packageVersionOf_unfold, Hexact, Htag. simpl.
  split; [done|]. by apply issued_calls.
Qed.

(** For a specifier that is neither a version nor a range, the manifest
    fetched on the first call is that of the version
    [getMaxDependencyVersion] resolves the specifier to. *)
Theorem manifest_of_resolved_tag (n s v : string) (w : world) :
  classify s = Tag →
  (getMaxDependencyVersion n s w).1 = Ok (Some v) → usable (Some v) = true →
  cache w !! join "@" [n; s] = None →
  (getPackageManifest n s w).1
  = awaited (pacote_manifest (registry w) (n +:+ "@" +:+ v) true).
Proof.
  unfold classify, getMaxDependencyVersion.
  destruct (JS.truthy (valid s)) eqn:Hexact; [discriminate|].
  destruct (JS.truthy (validRange s)); [discriminate|]. simpl.
  intros _ Htag Hu Hmiss. rewrite (memoized_miss _ _ _ Hmiss). simpl.
  rewrite underlying_unfold, packageVersionOf_unfold, Hexact. simpl.
  rewrite Htag. simpl in *. by rewrite Hu.
Qed.

End Laws.

Import Sample.

Lemma manifest_of_exact_version_witness :
  (getPackageManifest "pkg" "6.0.0" fresh).1
  = awaited (pacote_manifest (registry fresh) ("pkg" +:+ "@" +:+ "6.0.0") true)
  ∧ issued fresh (getPackageManifest "pkg" "6.0.0" fresh).2
    = [CallManifest ("pkg" +:+ "@" +:+ "6.0.0") true].
Proof.
  apply (manifest_of_exact_version "pkg" "6.0.0" "6.0.0" fresh); reflexivity.
Defined.

Lemma manifest_lookup_rejected_witness :
  (getPackageManifest "pkg" "offline" fresh).1 = Err (RegistryError "ENOTFOUND")
  ∧ issued fresh (getPackageManifest "pkg" "offline" fresh).2
    = [CallGetTagVersion "pkg" "offline"].
Proof.
  apply (manifest_lookup_rejected "pkg" "offline" "ENOTFOUND" fresh); reflexivity.
Defined.

Lemma manifest_of_resolved_tag_witness :
  (getPackageManifest "pkg" "latest" fresh).1
  = awaited (pacote_manifest (registry fresh) ("pkg" +:+ "@" +:+ "3.2.0") true).
Proof.
  apply (manifest_of_resolved_tag "pkg" "latest" "3.2.0" fresh); reflexivity.
Defined.

End ResolverLaws.

(** * Properties of the runtime queries *)

Module RuntimeTheory.
Import Resolver ResolverTheory Runtime.

Section Laws.

Context {semver : Semver} {platforms : Platforms}.

(** A platform without an installed runtime has no maximum version, and
    the registry is not asked. *)
Theorem no_runtime_no_version (platform : string)
    (projectData : DependencyQuery.IProjectData) (w : world) :
  hasRuntimeDependency platform projectData = false →
  getMaxRuntimeVersion platform projectData w = (Ok None, w).
Proof.
  unfold hasRuntimeDependency, getMaxRuntimeVersion.
  destruct (getCurrentPlatformVersion _ _) as [current|]; [|done].
  by intros ->.
Qed.

(** A runtime installed at an exact version is its own maximum: that
    version is returned as it is and the registry is not asked. *)
Theorem exact_runtime_is_kept (platform current : string)
    (projectData : DependencyQuery.IProjectData) (w : world) :
  getCurrentPlatformVersion (toLowerCase platform) projectData = Some current →
  current ≠ "" → JS.truthy (valid current) = true →
  getMaxRuntimeVersion platform projectData w = (Ok (Some current), w).
Proof.
  intros Hcur Hne Hexact. unfold getMaxRuntimeVersion. rewrite Hcur.
  rewrite (JSTheory.truthy_nonempty _ Hne).
  unfold getMaxDependencyVersion, mbind, M_bind, bind. rewrite Hexact. simpl.
  unfold JS.or. by rewrite (JSTheory.truthy_nonempty _ Hne).
Qed.

(** For an installed runtime the registry decides, and is asked once, by
    [getMaxDependencyVersion] for the framework package at the installed
    version: its answer is returned when it is a text that is not empty,
    the installed version when the answer is missing or empty, and its
    rejection when it rejects.  So a value that is returned is never
    missing nor empty. *)
Theorem installed_runtime_has_version (platform : string)
    (projectData : DependencyQuery.IProjectData) (w : world) :
  hasRuntimeDependency platform projectData = true →
  ∃ current,
    getCurrentPlatformVersion (toLowerCase platform) projectData = Some current
    ∧ current ≠ ""
    ∧ let lookup :=
        getMaxDependencyVersion
          (frameworkPackageName
             (getPlatformData (toLowerCase platform) projectData))
          current w in
      (getMaxRuntimeVersion platform projectData w).2 = lookup.2
      ∧ match lookup.1 with
        | Ok answer =>
            (getMaxRuntimeVersion platform projectData w).1
            = Ok (if JS.truthy answer then answer else Some current)
            ∧ JS.truthy (if JS.truthy answer then answer else Some current)
              = true
        | Err e => (getMaxRuntimeVersion platform projectData w).1 = Err e
        end.
Proof.
  unfold hasRuntimeDependency, getMaxRuntimeVersion.
  destruct (getCurrentPlatformVersion _ _) as [current|]; [|discriminate].
  intros Ht. rewrite Ht. exists current. split; [done|]. split.
  { intros ->. discriminate. }
  unfold mbind, M_bind, bind. simpl.
  destruct (getMaxDependencyVersion _ current w) as [[answer|e] w'];
    simpl; [|done].
  split; [done|]. unfold JS.or. split; [done|].
  by destruct (JS.truthy answer) eqn:Ea.
Qed.

(** The installed version stands in for a missing answer only: when the
    registry rejects the call, so does the function. *)
Theorem rejected_runtime_lookup (platform current reason : string)
    (projectData : DependencyQuery.IProjectData) (w : world) :
  getCurrentPlatformVersion (toLowerCase platform) projectData = Some current →
  current ≠ "" →
  (getMaxDependencyVersion
     (frameworkPackageName (getPlatformData (toLowerCase platform) projectData))
     current w).1 = Err (RegistryError reason) →
  (getMaxRuntimeVersion platform projectData w).1 = Err (RegistryError reason).
Proof.
  intros Hcur Hne Hrej. unfold getMaxRuntimeVersion. rewrite Hcur.
  rewrite (JSTheory.truthy_nonempty _ Hne).
  unfold mbind, M_bind, bind.
  destruct (getMaxDependencyVersion _ current w) as [[answer|e] w']; simpl in *;
    [discriminate|]. by rewrite Hrej.
Qed.

End Laws.

Import Resolver.Sample Runtime.Sample.

Lemma no_runtime_no_version_witness :
  getMaxRuntimeVersion "Windows" no_project fresh = (Ok None, fresh).
Proof.
  apply (no_runtime_no_version "Windows" no_project fresh). reflexivity.
Defined.

Lemma exact_runtime_is_kept_witness :
  getMaxRuntimeVersion "Android" no_project fresh = (Ok (Some "6.0.0"), fresh).
Proof.
  apply (exact_runtime_is_kept "Android" "6.0.0" no_project fresh);
    [reflexivity|discriminate|reflexivity].
Defined.

Lemma installed_runtime_has_version_witness :
  ∃ current,
    getCurrentPlatformVersion (toLowerCase "iOS") no_project = Some current
    ∧ current ≠ ""
    ∧ let lookup :=
        getMaxDependencyVersion
          (frameworkPackageName (getPlatformData (toLowerCase "iOS") no_project))
          current fresh in
      (getMaxRuntimeVersion "iOS" no_project fresh).2 = lookup.2
      ∧ match lookup.1 with
        | Ok answer =>
            (getMaxRuntimeVersion "iOS" no_project fresh).1
            = Ok (if JS.truthy answer then answer else Some current)
            ∧ JS.truthy (if JS.truthy answer then answer else Some current)
              = true
        | Err e => (getMaxRuntimeVersion "iOS" no_project fresh).1 = Err e
        end.
Proof.
  apply (installed_runtime_has_version "iOS" no_project fresh). reflexivity.
Defined.

(** The registry does not know the tag at which iOS is installed: the
    installed version is returned, after the one lookup. *)
Example unknown_runtime_tag_is_kept :
  getMaxRuntimeVersion "iOS" no_project fresh
  = (Ok (Some "rc"), record_call (CallGetTagVersion "tns-ios" "rc") fresh).
Proof. reflexivity. Qed.

Lemma rejected_runtime_lookup_witness :
  (getMaxRuntimeVersion "Web" no_project fresh).1 = Err (RegistryError "ENOTFOUND").
Proof.
  apply (rejected_runtime_lookup "Web" "offline" "ENOTFOUND" no_project fresh);
    [reflexivity|discriminate|reflexivity].
Defined.

End RuntimeTheory.

(** * Failures of the snapshot protocol *)

Module SnapshotJournalTheory.
Import Snapshot SnapshotJournal.

Section Runs.

Variable fault : nat → bool.

Lemma stops_ret {A} (a : A) (w : world) : stops_at_failure w (ret a w).
Proof. exists []. simpl. rewrite app_nil_r. split; [done|]. constructor. Qed.

Lemma stops_attempt (op : fs_op) (effect : fstree → fstree) (w : world) :
  stops_at_failure w (attempt fault op effect w).
Proof.
  unfold attempt. destruct (fault _); simpl.
  - exists [(op, false)]. split; [done|]. exists []. split; [done|]. constructor.
  - exists [(op, true)]. split; [done|]. by repeat constructor.
Qed.

Lemma stops_exists (p : path) (w : world) :
  stops_at_failure w (fs_exists p w).
Proof. exists [(OpExists p, true)]. split; [done|]. by repeat constructor. Qed.

Lemma stops_bind {A B} (m : M A) (k : A → M B) (w : world) :
  stops_at_failure w (m w) →
  (∀ a w1, stops_at_failure w1 (k a w1)) →
  stops_at_failure w ((m ≫= k) w).
Proof.
  intros (new1 & Hj1 & H1) Hk. unfold mbind, M_bind, bind.
  destruct (m w) as [[a|e] w1]; simpl in *.
  - destruct (Hk a w1) as (new2 & Hj2 & H2).
    exists (new1 ++ new2). rewrite Hj2, Hj1, <- app_assoc. split; [done|].
    destruct (k a w1).1 as [b|[op]].
    + by apply Forall_app.
    + destruct H2 as (before & -> & Hb). exists (new1 ++ before).
      rewrite <- app_assoc. split; [done|]. by apply Forall_app.
  - by exists new1.
Qed.

Lemma stops_for_of {A} (xs : list A) (body : A → M unit) (w : world) :
  (∀ x w1, stops_at_failure w1 (body x w1)) →
  stops_at_failure w (for_of xs body w).
Proof.
  intros Hbody. revert w. induction xs as [|x xs IH]; intros w; simpl.
  - apply stops_ret.
  - apply stops_bind; [apply Hbody|]. intros _ w1. apply IH.
Qed.

(** A restore and a backup make no call after one has thrown: when they
    return, every call they made succeeded; when they throw, the error is
    that of their last call and every call before it succeeded. *)
Theorem snapshot_stops_at_failure (F : list string) (B P : path) (w : world) :
  stops_at_failure w (restoreBackup fault F B P w)
  ∧ stops_at_failure w (backup fault F B P w).
Proof.
  split.
  - apply stops_for_of. intros f w1. unfold restoreFolder.
    apply stops_bind; [apply stops_attempt|]. intros _ w2. simpl.
    apply stops_bind; [apply stops_exists|]. intros present w3.
    destruct present; [apply stops_attempt|apply stops_ret].
  - unfold backup.
    apply stops_bind; [apply stops_attempt|]. intros _ w1.
    apply stops_bind; [apply stops_attempt|]. intros _ w2.
    apply stops_for_of. intros f w3. unfold backupFolder. simpl.
    apply stops_bind; [apply stops_exists|]. intros present w4.
    destruct present; [apply stops_attempt|apply stops_ret].
Qed.

End Runs.

End SnapshotJournalTheory.

(** * Properties of the requests to an iOS application *)

Module IOSSocketTheory.
Import IOSSocket.

Section Laws.

Context {given : Given} {notification : IiOSNotification} {services : Services}.

(** What the handler of the [catch] does. *)
Lemma handler_run (appId deviceId : string) (j : list call) :
  (fail (advice appId deviceId);; mret false) j
  = (match fail_answer (j ++ [Fail (advice appId deviceId)]) with
     | Ok _ => Ok false
     | Err e => Err e
     end, j ++ [Fail (advice appId deviceId)]).
Proof.
  unfold mbind, M_bind, bind, fail. simpl.
  by destruct (fail_answer _) as [[]|e].
Qed.

(** The runs of [executeRequest], by what the device answers. *)
Lemma executeRequest_runs (main ready appId deviceId : string)
    (timeout : number) (j : list call) :
  let observe :=
    PostNotification deviceId ready (Some IOS_OBSERVE_NOTIFICATION_COMMAND_TYPE) in
  let request := PostNotification deviceId main None in
  (∃ socket,
     post_answer (j ++ [observe]) = Ok socket
     ∧ executeRequest main ready appId deviceId timeout j
       = (Ok true, j ++ [observe;
                         AwaitNotification deviceId (unary_plus socket) timeout;
                         request]))
  ∨ (is_Err (post_answer (j ++ [observe]))
     ∧ executeRequest main ready appId deviceId timeout j
       = (fail (advice appId deviceId);; mret false) (j ++ [observe]))
  ∨ (∃ socket,
       post_answer (j ++ [observe]) = Ok socket
       ∧ executeRequest main ready appId deviceId timeout j
         = (fail (advice appId deviceId);; mret false)
             (j ++ [observe;
                    AwaitNotification deviceId (unary_plus socket) timeout;
                    request])).
Proof.
  intros observe request. unfold executeRequest, try_catch.
  set (handler := (fail (advice appId deviceId);; mret false)).
  clearbody handler.
  unfold mbind, M_bind, bind, postNotification, awaitNotification, await.
  fold observe. fold request.
  destruct (post_answer (j ++ [observe])) as [socket|e] eqn:E1.
  - rewrite <- !app_assoc. simpl.
    set (j3 := j ++ observe
                 :: AwaitNotification deviceId (unary_plus socket) timeout
                 :: [request]).
    destruct (post_answer j3) as [socket2|e] eqn:E2.
    + destruct (notification_answer j3) as [[]|e] eqn:E3.
      * left. by exists socket.
      * right. right. by exists socket.
    + right. right. by exists socket.
  - right. left. done.
Qed.

Lemma bind_ret {A} (m : M A) (j : list call) : (a ← m; mret a) j = m j.
Proof. unfold mbind, M_bind, bind. by destruct (m j) as [[a|e] j']. Qed.

Lemma advice_names (appId deviceId : string) :
  Resolver.includes appId (advice appId deviceId) = true
  ∧ Resolver.includes deviceId (advice appId deviceId) = true.
Proof.
  unfold advice. split.
  - apply ResolverTheory.includes_append_r.
    by rewrite ResolverTheory.includes_unfold, ResolverTheory.prefix_append.
  - do 3 apply ResolverTheory.includes_append_r.
    by rewrite ResolverTheory.includes_unfold, ResolverTheory.prefix_append.
Qed.

(** What [executeRequest] does, by what the device answers. *)
Lemma executeRequest_unfold (main ready appId deviceId : string)
    (timeout : number) (j : list call) :
  let observe :=
    PostNotification deviceId ready (Some IOS_OBSERVE_NOTIFICATION_COMMAND_TYPE) in
  let request := PostNotification deviceId main None in
  executeRequest main ready appId deviceId timeout j
  = match post_answer (j ++ [observe]) with
    | Err _ => (fail (advice appId deviceId);; mret false) (j ++ [observe])
    | Ok socket =>
        let asked :=
          j ++ [observe;
                AwaitNotification deviceId (unary_plus socket) timeout;
                request] in
        match post_answer asked, notification_answer asked with
        | Ok _, Ok _ => (Ok true, asked)
        | _, _ => (fail (advice appId deviceId);; mret false) asked
        end
    end.
Proof.
  intros observe request. unfold executeRequest, try_catch.
  set (handler := (fail (advice appId deviceId);; mret false)).
  clearbody handler.
  unfold mbind, M_bind, bind, postNotification, awaitNotification, await.
  fold observe. fold request.
  destruct (post_answer (j ++ [observe])) as [socket|e] eqn:E1; [|done].
  rewrite <- !app_assoc. simpl.
  set (j3 := j ++ observe
               :: AwaitNotification deviceId (unary_plus socket) timeout
               :: [request]).
  destruct (post_answer j3) as [socket2|e] eqn:E2; [|done].
  by destruct (notification_answer j3) as [[]|e] eqn:E3.
Qed.

(** The outcome of a refresh request is decided by the answers of the
    device.  It is [true] exactly when the post that observes the
    notification of the started refresh is answered with a socket, the
    post of the refresh request, made after the wait on that socket with
    timeout 5 has begun, is answered too, and the notification arrives;
    the calls made are then these three, in this order.  In every other
    case, at whichever step the failure was and whatever it was,
    [$errors.fail] is called once, last, with the advice that names the
    application and the device, and the outcome is that of this call:
    its error when it throws, [false] when it returns. *)
Theorem refresh_outcome (device : IiOSDevice) (appId : string)
    (j : list call) :
  let deviceId := identifier (deviceInfo device) in
  let observe :=
    PostNotification deviceId (getAppRefreshStarted appId)
      (Some IOS_OBSERVE_NOTIFICATION_COMMAND_TYPE) in
  let request := PostNotification deviceId (getRefreshRequest appId) None in
  let failing (made : list call) : result E bool * list call :=
    (match fail_answer (made ++ [Fail (advice appId deviceId)]) with
     | Ok _ => Ok false
     | Err e => Err e
     end, made ++ [Fail (advice appId deviceId)]) in
  executeRefreshRequest device appId j
  = match post_answer (j ++ [observe]) with
    | Err _ => failing (j ++ [observe])
    | Ok socket =>
        let asked :=
          j ++ [observe;
                AwaitNotification deviceId (unary_plus socket) (number_of_Z 5);
                request] in
        match post_answer asked, notification_answer asked with
        | Ok _, Ok _ => (Ok true, asked)
        | _, _ => failing asked
        end
    end
  ∧ Resolver.includes appId (advice appId deviceId) = true
  ∧ Resolver.includes deviceId (advice appId deviceId) = true.
Proof.
  intros deviceId observe request failing. split; [|apply advice_names].
  unfold executeRefreshRequest. rewrite bind_ret. fold deviceId.
  rewrite executeRequest_unfold. fold observe. fold request.
  destruct (post_answer (j ++ [observe])) as [socket|e]; [|apply handler_run].
  cbv zeta.
  destruct (post_answer _) as [socket2|e]; [|apply handler_run].
  destruct (notification_answer _) as [[]|e]; [done|apply handler_run].
Qed.

(** When [$errors.fail] always throws, a refresh request never returns
    [false]: it returns [true] or throws what [$errors.fail] threw. *)
Theorem refresh_true_or_thrown (device : IiOSDevice) (appId : string)
    (j : list call) :
  (∀ j', fail_answer j' ≠ Ok tt) →
  (executeRefreshRequest device appId j).1 = Ok true
  ∨ ∃ e, (executeRefreshRequest device appId j).1 = Err e
         ∧ fail_answer (executeRefreshRequest device appId j).2 = Err e.
Proof.
  intros Hthrows. unfold executeRefreshRequest. rewrite bind_ret.
  destruct (executeRequest_runs (getRefreshRequest appId)
              (getAppRefreshStarted appId) appId (identifier (deviceInfo device))
              (number_of_Z 5) j)
    as [(socket & Hs & ->)|[(_ & ->)|(socket & Hs & ->)]].
  - by left.
  - right. rewrite handler_run. simpl.
    destruct (fail_answer _) as [[]|e] eqn:Ef; [by apply Hthrows in Ef|].
    by exists e.
  - right. rewrite handler_run. simpl.
    destruct (fail_answer _) as [[]|e] eqn:Ef; [by apply Hthrows in Ef|].
    by exists e.
Qed.

(** An attach request always begins by posting the observation of the
    notification that the application is ready for attach; the attach
    request itself is posted only when that post was answered with a
    socket, and right after the wait on that socket, with the timeout
    given, has begun. *)
Theorem attach_observes_before_requesting (device : IiOSDevice)
    (timeout : number) (appId : string) (j : list call) :
  let deviceId := identifier (deviceInfo device) in
  let observe :=
    PostNotification deviceId (getReadyForAttach appId)
      (Some IOS_OBSERVE_NOTIFICATION_COMMAND_TYPE) in
  let request :=
    PostNotification deviceId (getAttachRequest appId deviceId) None in
  ∃ rest,
    (executeAttachRequest device timeout appId j).2 = j ++ observe :: rest
    ∧ (request ∈ rest →
       ∃ socket rest',
         post_answer (j ++ [observe]) = Ok socket
         ∧ rest = AwaitNotification deviceId (unary_plus socket) timeout
                  :: request :: rest').
Proof.
  intros deviceId observe request. unfold executeAttachRequest.
  fold deviceId.
  assert (Hsame : ∀ (m : M bool) j0, ((m;; mret tt) j0).2 = (m j0).2).
  { intros m j0. unfold mbind, M_bind, bind. by destruct (m j0) as [[a|e] j']. }
  rewrite Hsame.
  destruct (executeRequest_runs (getAttachRequest appId deviceId)
              (getReadyForAttach appId) appId deviceId timeout j)
    as [(socket & Hs & ->)|[(_ & ->)|(socket & Hs & ->)]].
  - exists [AwaitNotification deviceId (unary_plus socket) timeout; request].
    split; [done|]. intros _. by exists socket, [].
  - rewrite handler_run. simpl. exists [Fail (advice appId deviceId)].
    rewrite <- app_assoc. split; [done|].
    intros H%list_elem_of_singleton. discriminate.
  - rewrite handler_run. simpl.
    exists [AwaitNotification deviceId (unary_plus socket) timeout; request;
            Fail (advice appId deviceId)].
    rewrite <- app_assoc. split; [done|]. intros _.
    by exists socket, [Fail (advice appId deviceId)].
Qed.

End Laws.

Import Sample.

Lemma refresh_true_or_thrown_witness :
  (executeRefreshRequest (services := silent) phone "org.app" []).1 = Ok true
  ∨ ∃ e, (executeRefreshRequest (services := silent) phone "org.app" []).1 = Err e
         ∧ fail_answer (Services := silent)
             (executeRefreshRequest (services := silent) phone "org.app" []).2
           = Err e.
Proof.
  apply (refresh_true_or_thrown (services := silent) phone "org.app" []).
  intros j'. discriminate.
Defined.

(** The device does not send the notification: the refresh fails with the
    error of [$errors.fail], not with the timeout. *)
Example silent_device_fails_with_advice :
  executeRefreshRequest (services := silent) phone "org.app" []
  = (Err "failed",
     [PostNotification "udid" "org.app:AppRefreshStarted" (Some "ObserveNotification");
      AwaitNotification "udid" 7%Z 5%Z;
      PostNotification "udid" "org.app:RefreshRequest" None;
      Fail (advice "org.app" "udid")]).
Proof. reflexivity. Qed.

Example attentive_device_refreshes :
  executeRefreshRequest (services := attentive) phone "org.app" []
  = (Ok true,
     [PostNotification "udid" "org.app:AppRefreshStarted" (Some "ObserveNotification");
      AwaitNotification "udid" 7%Z 5%Z;
      PostNotification "udid" "org.app:RefreshRequest" None]).
Proof. reflexivity. Qed.

End IOSSocketTheory.

(** * Properties of the package manager *)

Module NodePackageManagerTheory.
Import NodePackageManager.

Section Laws.

Context {given : Given} {services : Services}.

(** ** Computations that only add commands of a kind *)

Lemma emits_ret {A} (kind : call → Prop) (a : A) : emits kind (mret a).
Proof. intros j. exists []. simpl. by rewrite app_nil_r. Qed.

Lemma emits_throw {A} (kind : call → Prop) (e : E) :
  emits kind (throw e : M A).
Proof. intros j. exists []. simpl. by rewrite app_nil_r. Qed.

Lemma emits_ask {A} (kind : call → Prop) (answer : list call → result E A) :
  emits kind (ask answer).
Proof. intros j. exists []. simpl. by rewrite app_nil_r. Qed.

Lemma emits_command {A} (kind : call → Prop) (c : call)
    (answer : list call → result E A) :
  kind c → emits kind (command c answer).
Proof. intros Hc j. exists [c]. split; [done|]. by repeat constructor. Qed.

Lemma emits_bind {A B} (kind : call → Prop) (m : M A) (k : A → M B) :
  emits kind m → (∀ a, emits kind (k a)) → emits kind (m ≫= k).
Proof.
  intros Hm Hk j. destruct (Hm j) as (new1 & Hj1 & H1).
  unfold mbind, M_bind, bind. destruct (m j) as [[a|e] j1]; simpl in *.
  - destruct (Hk a j1) as (new2 & Hj2 & H2). exists (new1 ++ new2).
    rewrite Hj2, Hj1, <- app_assoc. split; [done|]. by apply Forall_app.
  - by exists new1.
Qed.

Lemma emits_try_catch {A} (kind : call → Prop) (body : M A)
    (handler : E → M A) :
  emits kind body → (∀ e, emits kind (handler e)) →
  emits kind (try_catch body handler).
Proof.
  intros Hm Hk j. destruct (Hm j) as (new1 & Hj1 & H1).
  unfold try_catch. destruct (body j) as [[a|e] j1]; simpl in *.
  - by exists new1.
  - destruct (Hk e j1) as (new2 & Hj2 & H2). exists (new1 ++ new2).
    rewrite Hj2, Hj1, <- app_assoc. split; [done|]. by apply Forall_app.
Qed.

Lemma emits_join (kind : call → Prop) (parts : list (option string)) :
  emits kind (join parts).
Proof.
  unfold join. destruct (mapM id parts); [apply emits_ret|apply emits_throw].
Qed.

Lemma emits_weaken {A} (kind kind' : call → Prop) (m : M A) :
  (∀ c, kind c → kind' c) → emits kind m → emits kind' m.
Proof.
  intros Hk Hm j. destruct (Hm j) as (new & Hj & Hnew). exists new.
  split; [done|]. eapply Forall_impl; [done|]. apply Hk.
Qed.

Lemma emits_isPackageUnpacked (kind : call → Prop) (packagePath : string) :
  emits kind (isPackageUnpacked packagePath).
Proof.
  unfold isPackageUnpacked. apply emits_bind; [apply emits_ask|].
  intros []; [|apply emits_ret].
  apply emits_bind; [apply emits_ask|]. intros files. apply emits_ret.
Qed.

Lemma emits_cacheUnpack (kind : call → Prop) (packageName : string)
    (version unpackTarget : option string) :
  (∀ target, kind (CacheUnpack packageName version target)) →
  emits kind (cacheUnpack packageName version unpackTarget).
Proof.
  intros Hk. unfold cacheUnpack. apply emits_bind.
  - destruct (JS.truthy unpackTarget); [apply emits_ret|apply emits_join].
  - intros target. by apply emits_command.
Qed.

(** ** The commands of [installCore] *)

(** Whatever the collaborators answer, [installCore] only writes to the
    logger and gives npm commands about the package it was asked for; an
    install it runs is of exactly the name it was given, with no version
    bound appended, into the directory it was given; and it never touches
    the lock nor [$errors]. *)
Theorem installCore_commands (packageName pathToSave : string)
    (version : option string) :
  emits (core_call packageName pathToSave)
    (installCore packageName pathToSave version).
Proof.
  unfold installCore. destruct (JS.truthy frameworkPath) eqn:Hfw.
  - apply emits_bind; [apply emits_ask|]. intros []; [|apply emits_ret].
    apply emits_bind.
    + unfold npmInstall. rewrite Hfw. simpl.
      apply emits_bind; [by apply emits_command|]. intros _.
      apply emits_bind; [by apply emits_command|]. intros _.
      by apply emits_command.
    + intros _. apply emits_bind; [apply emits_join|]. intros nodeModules.
      apply emits_bind; [apply emits_ask|]. intros folders. apply emits_join.
  - apply emits_bind.
    + apply emits_try_catch.
      * apply emits_bind; [apply emits_ask|]. intros file. apply emits_ret.
      * intros ex. apply emits_ret.
    + intros [packageDir|]; [apply emits_ret|].
      apply emits_bind.
      { destruct (JS.truthy version); [apply emits_ret|].
        unfold getLatestVersion.
        apply emits_bind; [by apply emits_command|]. intros keys.
        apply emits_bind; [by apply emits_command|]. intros _.
        apply emits_ret. }
      intros version'. apply emits_bind; [apply emits_join|].
      intros packagePath. apply emits_bind; [apply emits_ask|]. intros cached.
      apply emits_bind.
      { destruct cached; [apply emits_ret|]. by apply emits_command. }
      intros _. apply emits_bind; [apply emits_isPackageUnpacked|].
      intros unpacked. apply emits_bind.
      { destruct unpacked; [apply emits_ret|]. by apply emits_cacheUnpack. }
      intros _. apply emits_ret.
Qed.

(** ** The lock around an installation *)

Lemma emits_try_finally {A} (kind : call → Prop) (body : M A)
    (cleanup : M unit) :
  emits kind body → emits kind cleanup → emits kind (try_finally body cleanup).
Proof.
  intros Hb Hc j. destruct (Hb j) as (new1 & Hj1 & H1).
  unfold try_finally. destruct (body j) as [outcome j1]. simpl in *.
  destruct (Hc j1) as (new2 & Hj2 & H2).
  destruct (cleanup j1) as [[[]|e] j2]; simpl in *;
    exists (new1 ++ new2); rewrite Hj2, Hj1, <- app_assoc;
    (split; [done|]); by apply Forall_app.
Qed.

(** The part of [install] between the lock and the unlock. *)
Lemma guarded_emits (kind : call → Prop) (packageName : string)
    (opts : option INpmInstallOptions) :
  (∀ e, kind (LoggerDebug e)) →
  (∀ e, kind (Fail "%s. Error: %s" NPM_LOAD_FAILED e)) →
  emits kind (installCore packageName (pathToSave_of opts) (version_of opts)) →
  emits kind
    (try_catch
       (path ← installCore packageName (pathToSave_of opts) (version_of opts);
        mret (Some path))
       (λ error,
          command (LoggerDebug error) (λ _, Ok tt);;
          command (Fail "%s. Error: %s" NPM_LOAD_FAILED error) fail_answer;;
          mret None)).
Proof.
  intros Hdebug Hfail Hcore. apply emits_try_catch.
  - apply emits_bind; [done|]. intros path. apply emits_ret.
  - intros e. apply emits_bind; [by apply emits_command|]. intros _.
    apply emits_bind; [by apply emits_command|]. intros _. apply emits_ret.
Qed.

Lemma command_then {A B} (c : call) (answer : list call → result E A)
    (k : A → M B) (j : list call) :
  (command c answer ≫= k) j
  = match answer (j ++ [c]) with
    | Ok a => k a (j ++ [c])
    | Err e => (Err e, j ++ [c])
    end.
Proof. reflexivity. Qed.

(** An installation takes the lock first.  If that fails, nothing else is
    done.  Otherwise, whatever happens in between, error or not, the lock
    is released, once and last, and is not touched in between. *)
Theorem install_locks_and_unlocks (packageName : string)
    (opts : option INpmInstallOptions) (j : list call) :
  (∃ e, lock_answer (j ++ [Lock]) = Err e
        ∧ install packageName opts j = (Err e, j ++ [Lock]))
  ∨ (∃ middle,
       (install packageName opts j).2 = j ++ Lock :: middle ++ [Unlock]
       ∧ Forall (λ c, c ≠ Lock ∧ c ≠ Unlock) middle).
Proof.
  unfold install. rewrite command_then.
  destruct (lock_answer (j ++ [Lock])) as [[]|e] eqn:Elock.
  - right.
    destruct (guarded_emits (λ c, c ≠ Lock ∧ c ≠ Unlock) packageName opts)
      with (j := j ++ [Lock]) as (middle & Hj & Hmiddle); [done..| |].
    { eapply emits_weaken; [|apply installCore_commands].
      by intros []. }
    exists middle. split; [|done].
    unfold try_finally, pathToSave_of, version_of in *.
    match goal with |- context [try_catch ?b ?h (j ++ [Lock])] =>
      destruct (try_catch b h (j ++ [Lock])) as [outcome j1] end.
    simpl in Hj. subst j1. unfold command.
    destruct (unlock_answer _) as [[]|e]; simpl; by rewrite <- !app_assoc.
  - left. by exists e.
Qed.

(** When the installation itself throws, the error is logged and handed
    to [$errors.fail] with the message about npm, and the lock is
    released.  What the call throws is the error of the unlock if that
    fails, else the error of [$errors.fail]; if neither throws, the call
    returns [undefined]. *)
Theorem install_replaces_error (packageName : string)
    (opts : option INpmInstallOptions) (j : list call) (e : E) :
  lock_answer (j ++ [Lock]) = Ok tt →
  (installCore packageName (pathToSave_of opts) (version_of opts)
     (j ++ [Lock])).1 = Err e →
  let j1 := (installCore packageName (pathToSave_of opts) (version_of opts)
               (j ++ [Lock])).2 in
  let j2 := j1 ++ [LoggerDebug e; Fail "%s. Error: %s" NPM_LOAD_FAILED e] in
  install packageName opts j
  = (match unlock_answer (j2 ++ [Unlock]) with
     | Err u => Err u
     | Ok _ => match fail_answer j2 with
               | Err f => Err f
               | Ok _ => Ok None
               end
     end, j2 ++ [Unlock]).
Proof.
  intros Hlock Hcore j1 j2. subst j2 j1.
  unfold install. rewrite command_then, Hlock.
  unfold try_finally, try_catch. unfold mbind at 1, M_bind at 1, bind at 1.
  change (default "" (JS.or (opts ≫= pathToSave) (Some npm_cache)))
    with (pathToSave_of opts).
  change (if JS.truthy (opts ≫= version) then opts ≫= version else None)
    with (version_of opts).
  destruct (installCore _ _ _ _) as [[path|e'] j1]; simpl in Hcore;
    [discriminate|]. injection Hcore as ->.
  rewrite !command_then. simpl. rewrite <- !app_assoc. simpl.
  destruct (fail_answer _) as [[]|f]; simpl; rewrite <- !app_assoc; simpl;
    destruct (unlock_answer _) as [[]|u]; done.
Qed.

(** ** A module that is found locally *)

Lemma installCore_local (packageName pathToSave file : string)
    (version : option string) (j : list call) :
  JS.truthy frameworkPath = false →
  resolve_sync j packageName cwd = Ok file →
  installCore packageName pathToSave version j = (Ok (path_dirname file), j).
Proof.
  intros Hfw Hres. unfold installCore. rewrite Hfw.
  unfold mbind, M_bind, bind, try_catch, ask. by rewrite Hres.
Qed.

(** Without a framework path, a package that the module resolution finds
    from the working directory is not installed at all, whatever version
    was asked for: the directory of the file found is returned, and
    between lock and unlock nothing is asked of npm. *)
Theorem install_prefers_local_module (packageName file : string)
    (opts : option INpmInstallOptions) (j : list call) :
  JS.truthy frameworkPath = false →
  lock_answer (j ++ [Lock]) = Ok tt →
  resolve_sync (j ++ [Lock]) packageName cwd = Ok file →
  install packageName opts j
  = (match unlock_answer (j ++ [Lock; Unlock]) with
     | Ok _ => Ok (Some (path_dirname file))
     | Err u => Err u
     end, j ++ [Lock; Unlock]).
Proof.
  intros Hfw Hlock Hres. unfold install. rewrite command_then, Hlock.
  unfold try_finally, try_catch. unfold mbind at 1, M_bind at 1, bind at 1.
  rewrite (installCore_local _ _ file _ _ Hfw Hres). simpl.
  unfold command. rewrite <- app_assoc. simpl.
  by destruct (unlock_answer _) as [[]|u].
Qed.

(** ** A version that is given *)

Lemma version_of_truthy (opts : option INpmInstallOptions) (v : string) :
  version_of opts = Some v → JS.truthy (Some v) = true.
Proof.
  unfold version_of. destruct (JS.truthy (opts ≫= version)) eqn:E; [|done].
  by intros <-.
Qed.

Lemma cacheUnpack_default (packageName v : string) :
  cacheUnpack packageName (Some v) None
  = (command (CacheUnpack packageName (Some v)
                (path_join [npm_cache; packageName; v; "package"]))
       unpack_answer : M unit).
Proof. reflexivity. Qed.

Lemma installCore_for_version (packageName pathToSave v : string) :
  JS.truthy (Some v) = true →
  emits (for_version packageName v)
    (installCore packageName pathToSave (Some v)).
Proof.
  intros Hv. unfold installCore. destruct (JS.truthy frameworkPath) eqn:Hfw.
  - apply emits_bind; [apply emits_ask|]. intros []; [|apply emits_ret].
    apply emits_bind.
    + unfold npmInstall.
      apply emits_bind; [by apply emits_command|]. intros _.
      apply emits_bind; [by apply emits_command|]. intros _.
      by apply emits_command.
    + intros _. apply emits_bind; [apply emits_join|]. intros nodeModules.
      apply emits_bind; [apply emits_ask|]. intros folders. apply emits_join.
  - apply emits_bind.
    + apply emits_try_catch.
      * apply emits_bind; [apply emits_ask|]. intros file. apply emits_ret.
      * intros ex. apply emits_ret.
    + intros [packageDir|]; [apply emits_ret|].
      rewrite Hv. unfold mbind at 1, M_bind at 1. unfold bind at 1.
      unfold mret at 1, M_ret at 1, ret at 1.
      apply emits_bind; [apply emits_join|].
      intros packagePath. apply emits_bind; [apply emits_ask|]. intros cached.
      apply emits_bind.
      { destruct cached; [apply emits_ret|]. by apply emits_command. }
      intros _. apply emits_bind; [apply emits_isPackageUnpacked|].
      intros unpacked. apply emits_bind.
      { destruct unpacked; [apply emits_ret|].
        rewrite cacheUnpack_default. by apply emits_command. }
      intros _. apply emits_ret.
Qed.

(** When a version is given, the latest version is never asked of npm, and
    whatever is added to the cache or unpacked is that version, unpacked
    into [path.join(npm.cache, name, version, "package")]. *)
Theorem install_uses_given_version (packageName v : string)
    (opts : option INpmInstallOptions) (j : list call) :
  version_of opts = Some v →
  ∃ new, (install packageName opts j).2 = j ++ new
         ∧ Forall (for_version packageName v) new.
Proof.
  intros Hv. pose proof (version_of_truthy _ _ Hv) as Ht.
  unfold install.
  assert (Hall : emits (for_version packageName v)
            (command Lock lock_answer ≫= λ _,
             try_finally
               (try_catch
                  (path ← installCore packageName (pathToSave_of opts)
                            (version_of opts);
                   mret (Some path))
                  (λ error,
                     command (LoggerDebug error) (λ _, Ok tt);;
                     command (Fail "%s. Error: %s" NPM_LOAD_FAILED error)
                       fail_answer;;
                     mret None))
               (command Unlock unlock_answer))).
  { apply emits_bind; [by apply emits_command|]. intros _.
    apply emits_try_finally; [|by apply emits_command].
    apply guarded_emits; [done..|]. rewrite Hv.
    by apply installCore_for_version. }
  apply Hall.
Qed.

(** ** Adding to the cache *)

(** [addToCache] always asks npm to add the package to the cache, whether
    it is cached or not, and after that unpacks it at most once. *)
Theorem addToCache_always_adds (packageName : string)
    (version : option string) (j : list call) :
  ∃ rest,
    (addToCache packageName version j).2
    = j ++ CacheAdd packageName version :: rest
    ∧ (rest = [] ∨ ∃ target, rest = [CacheUnpack packageName version target]).
Proof.
  unfold addToCache, addToCacheCore. rewrite command_then.
  destruct (cache_add_answer _) as [[]|e]; [|exists []; split; [done|by left]].
  unfold mbind, M_bind, bind, join, isPackageUnpacked, cacheUnpack, ask,
    command, throw, mret, M_ret, ret, join.
  unfold mbind, M_bind, bind. simpl.
  destruct version as [v|]; simpl; [|exists []; split; [done|by left]].
  destruct (stats_isDirectory _ _) as [[]|e]; simpl.
  - destruct (enumerate_files _ _) as [files|e]; simpl;
      [|exists []; split; [done|by left]].
    destruct (1 <? length files)%nat; simpl.
    + exists []. split; [done|by left].
    + eexists [_]. rewrite <- app_assoc. split; [done|]. right. by eexists.
  - eexists [_]. rewrite <- app_assoc. split; [done|]. right. by eexists.
  - exists []. split; [done|by left].
Qed.

End Laws.

Import Sample.

Lemma install_replaces_error_witness :
  install (services := unreachable) "tns-android" (at_version "1.0.0") []
  = (Err "failed",
     [Lock; CacheAdd "tns-android" (Some "1.0.0"); LoggerDebug "ENOTFOUND";
      Fail "%s. Error: %s" NPM_LOAD_FAILED "ENOTFOUND"; Unlock]).
Proof.
  exact (install_replaces_error (services := unreachable) "tns-android"
           (at_version "1.0.0") [] "ENOTFOUND" eq_refl eq_refl).
Defined.

Lemma install_prefers_local_module_witness :
  install (services := local) "tns-android" (at_version "1.0.0") []
  = (Ok (Some (path_dirname "/work/node_modules/tns-android/index.js")),
     [Lock; Unlock]).
Proof.
  exact (install_prefers_local_module (services := local) "tns-android"
           "/work/node_modules/tns-android/index.js" (at_version "1.0.0") []
           eq_refl eq_refl eq_refl).
Defined.

Lemma install_uses_given_version_witness :
  ∃ new,
    (install (services := unreachable) "tns-android" (at_version "1.0.0") []).2
    = [] ++ new
    ∧ Forall (for_version "tns-android" "1.0.0") new.
Proof.
  apply (install_uses_given_version (services := unreachable) "tns-android"
           "1.0.0" (at_version "1.0.0") []).
  reflexivity.
Defined.

(** Without a version, the latest one is asked of npm first. *)
Example latest_is_asked_without_version :
  (install (services := unreachable) "tns-android" None []).2
  = [Lock; NpmView "tns-android"; LoggerDebug "ENOTFOUND";
     Fail "%s. Error: %s" NPM_LOAD_FAILED "ENOTFOUND"; Unlock].
Proof. reflexivity. Qed.

End NodePackageManagerTheory.
